(** * Pizza: metadata resolution for local FLAC files

    A shallow embedding of the decision core of the [pizza] repository:
    the server-side record construction of [pizza/app.py]
    ([grab_musicbrainz]) and the client-side [update] command of
    [pizza/cli/__main__.py] (directory scan, album resolution through the
    cache and the remote service, track matching, tag assembly and
    write-back).

    External collaborators are kept at their interface: the tag container
    (mutagen), the remote service, the lyrics provider and the BPM pipeline
    are oracles or explicit stores. *)

From stdpp Require Import gmap strings list fin_maps pretty sorting.
From Stdlib Require Import ZArith Ascii.

Open Scope string_scope.
Open Scope list_scope.

(** ** Python primitives used by the program *)

Module Py.

(** Truthiness of an optional string: [None] and the empty string are
    falsy. *)
Definition truthy (o : option string) : bool :=
  match o with
  | None => false
  | Some s => negb (String.eqb s "")
  end.

(** [str(n)] for an integer. *)
Definition str (n : Z) : string := pretty n.

(** Characters removed by [int] around an ASCII argument: tab, line feed,
    vertical tab, form feed, carriage return and space. *)
Definition is_space (c : ascii) : bool :=
  let n := N_of_ascii c in
  ((9 <=? n) && (n <=? 13) || (n =? 32))%N%bool.

Definition digit_of (c : ascii) : option Z :=
  let n := Z.of_N (N_of_ascii c) in
  if ((48 <=? n)%Z && (n <=? 57)%Z)%bool then Some (n - 48)%Z else None.

(** Digits of a base-10 literal; a single underscore is allowed between
    two digits. [after_digit] tells whether the previous character was a
    digit. *)
Fixpoint int_digits (acc : Z) (after_digit : bool) (s : list ascii)
  : option Z :=
  match s with
  | [] => if after_digit then Some acc else None
  | c :: rest =>
      match digit_of c with
      | Some d => int_digits (10 * acc + d)%Z true rest
      | None =>
          if Ascii.eqb c "_" && after_digit
          then int_digits acc false rest
          else None
      end
  end.

Fixpoint lstrip (s : list ascii) : list ascii :=
  match s with
  | c :: rest => if is_space c then lstrip rest else s
  | [] => []
  end.

Definition strip (s : list ascii) : list ascii :=
  reverse (lstrip (reverse (lstrip s))).

(** [int(s)] for a string [s], base 10; [None] stands for [ValueError].
    This is the interpreter's [int] on [plain] strings (below): on text
    with other than ASCII characters [int] also reads the decimal digits
    and blanks of other scripts, and with its default settings it refuses
    more than 4300 digits. *)
Definition int (s : string) : option Z :=
  match strip (String.list_ascii_of_string s) with
  | "-"%char :: ds => Z.opp <$> int_digits 0 false ds
  | "+"%char :: ds => int_digits 0 false ds
  | ds => int_digits 0 false ds
  end.

(** ASCII text. *)
Definition ascii_text (s : string) : bool :=
  forallb (λ c, (N_of_ascii c <? 128)%N) (String.list_ascii_of_string s).

(** The strings on which [int] above is the interpreter's: ASCII text of
    at most 4300 characters. *)
Definition plain (s : string) : bool :=
  ascii_text s && (String.length s <=? 4300)%nat.

(** [s.split(sep)[0]]: the part of [s] before the first [sep]. *)
Fixpoint split_head (sep : ascii) (s : string) : string :=
  match s with
  | EmptyString => EmptyString
  | String c rest =>
      if Ascii.eqb c sep then EmptyString else String c (split_head sep rest)
  end.

(** [name.rfind('.')], counted from [i], the index of the head of [s]. *)
Fixpoint rfind_dot (i : nat) (s : list ascii) : option nat :=
  match s with
  | [] => None
  | c :: rest =>
      match rfind_dot (S i) rest with
      | Some j => Some j
      | None => if Ascii.eqb c "." then Some i else None
      end
  end.

(** [PurePath.suffix] of a final path component: the part from the last
    dot on, provided that dot is neither the first nor the last
    character. *)
Definition suffix (name : string) : string :=
  let cs := String.list_ascii_of_string name in
  match rfind_dot 0 cs with
  | Some i =>
      if bool_decide (0 < i < length cs - 1)
      then String.string_of_list_ascii (drop i cs)
      else ""
  | None => ""
  end.

End Py.

(** ** Data model shared by the service and the client *)

(** One entry of ["tracks"] in a release record. *)
Record TrackRecord := {
  t_disc : Z;
  t_artist : list string;
  t_title : string;
  t_position : Z
}.

Record Ids := { ids_album : string; ids_artist : string }.

(** The release record built by the service and carried as ["data"]. *)
Record AlbumRecord := {
  r_ids : Ids;
  r_artist : list string;
  r_date : option string;
  r_album : string;
  r_tracks : list TrackRecord
}.

(** The JSON body answered by [/api/find]. *)
Record response := { code : Z; data : option AlbumRecord }.

(** ** Service side: [pizza/app.py] *)

Module App.

(** An element of an ["artist-credit"] list: a dict with the artist, or
    a bare join phrase. *)
Inductive credit :=
| Credit (artist_id artist_name : string)
| JoinPhrase (phrase : string).

Record recording := {
  rec_title : string;
  rec_artist_credit : list credit
}.

Record track := {
  trk_position : string;
  trk_recording : recording
}.

Record medium := {
  track_count : Z;
  track_list : list track
}.

Record release := {
  rel_id : string;
  rel_artist_credit : list credit;
  rel_date : option string;
  rel_title : string;
  medium_list : list medium
}.

(** [[a["artist"]["name"] for a in credits if isinstance(a, dict)]] *)
Definition credit_names (cs : list credit) : list string :=
  omap (λ c, match c with Credit _ n => Some n | JoinPhrase _ => None end) cs.

(** The dict appended for one track of the medium at [index]; [None]
    stands for an exception. *)
Definition track_entry (data : release) (index : nat) (t : track)
  : option TrackRecord :=
  position ←
    (if bool_decide (0 < index)
     then p ← Py.int (trk_position t);
          prev ← medium_list data !! (index - 1);
          Some (p + track_count prev)%Z
     else Py.int (trk_position t));
  Some {| t_disc := (Z.of_nat index + 1)%Z;
          t_artist := credit_names (rec_artist_credit (trk_recording t));
          t_title := rec_title (trk_recording t);
          t_position := position |}.

(** The loop over [enumerate(data["medium-list"])], from [index] on. *)
Fixpoint fill_tracks (data : release) (index : nat) (media : list medium)
  : option (list TrackRecord) :=
  match media with
  | [] => Some []
  | m :: rest =>
      entries ← mapM (track_entry data index) (track_list m);
      more ← fill_tracks data (S index) rest;
      Some (entries ++ more)
  end.

Definition grab_musicbrainz (data : release) : option AlbumRecord :=
  artist_id ←
    match rel_artist_credit data with
    | Credit i _ :: _ => Some i
    | _ => None
    end;
  tracks ← fill_tracks data 0 (medium_list data);
  Some {| r_ids := {| ids_album := rel_id data; ids_artist := artist_id |};
          r_artist := credit_names (rel_artist_credit data);
          r_date := rel_date data;
          r_album := rel_title data;
          r_tracks := tracks |}.

(** The body built by [route_api_find] from the search result. *)
Definition route_api_find (results : option AlbumRecord) : response :=
  {| code := 200; data := results |}.

(** Number of tracks listed on the media before the one at [index]. *)
Definition tracks_before (media : list medium) (index : nat) : nat :=
  sum_list (length ∘ track_list <$> take index media).

End App.

(** ** The response cache used by the client *)

Module Cache.

(** Modelled from the spec: the module [pizza/cli/cache.py] is not part of
    the sources at hand. Following the MetadataCache contract, the cache
    is a key-value store from an exact (artist, album) pair to what was
    stored for it; a lookup of a missing key reports absence, a store
    overwrites the entry of that exact key. The client stores the whole
    response body. *)
Definition find_response (artist album : string)
    (c : gmap (string * string) response) : option response :=
  c !! (artist, album).

(** Modelled from the spec: [put] overwrites the entry of the exact key. *)
Definition set_response (artist album : string) (resp : response)
    (c : gmap (string * string) response) : gmap (string * string) response :=
  <[(artist, album) := resp]> c.

(** Modelled from the spec: [clear] removes all entries. *)
Definition clear (c : gmap (string * string) response)
  : gmap (string * string) response := ∅.

End Cache.

(** ** Client side: [pizza/cli/__main__.py] *)

(** *** Tag container

    The value list of a Vorbis comment key, as mutagen exposes it: a key
    that is present has at least one value, so the list is kept as its
    first value and the rest. Keys are the names as the container
    normalises them: it compares keys without regard to case. *)
Definition values : Type := string * list string.

(** A parsed FLAC file: its tags and the stream duration, which the core
    only hands to the lyrics provider. *)
Record FLAC := { tags : gmap string values; info_length : Z }.

(** A value assigned to a tag: a string or a list of strings. *)
Inductive tag_value :=
| Str (s : string)
| Lst (l : list string).

(** [metadata[key] = value]: the key's former values are dropped and the
    new ones stored; a bare string is a one-element list, an empty list
    leaves the key absent. *)
Definition setitem (key : string) (v : tag_value) (t : gmap string values)
  : gmap string values :=
  match v with
  | Str s => <[key := (s, [])]> t
  | Lst [] => delete key t
  | Lst (s :: rest) => <[key := (s, rest)]> t
  end.

(** *** Files

    A path is its list of components; an entry of the directory tree is
    what [rglob] yields, with the outcome of parsing it as FLAC ([None]:
    [MutagenError]). *)
Definition name (file : list string) : string := List.last file "".

Record entry := {
  e_path : list string;
  e_is_file : bool;
  e_flac : option FLAC
}.

(** [(title, position, file)] as appended to an item's ["tracks"]. *)
Definition candidate : Type := option string * option string * list string.

(** An element of [import_list]. *)
Record item := {
  it_album : string;
  it_artist : string;
  it_tracks : list candidate
}.

(** Console lines, by kind. *)
Inductive message :=
| PathDoesNotExist
| SkippingMissingArtist (file : list string)
| SkippingMissingAlbum (file : list string)
| FailedLoading (file : list string)
| Header (album artist : string) (trackc : nat)
| FailedToFetch
| NotFound
| NoDataToMatch (file_name : string)
| NoMatchFound (file_name : string)
| UpdatedMetadata (file_name : string).

(** Exceptions that leave [update]. *)
Inductive exn :=
| ValueError
| IndexError
| MutagenError
| LyricsError
| BpmError.

Inductive outcome :=
| Done
| Raised (e : exn).

(** Error monad for the in-memory assembly of a file's tags. *)
Inductive res (A : Type) :=
| Ok (a : A)
| Raise (e : exn).
Arguments Ok {A} a.
Arguments Raise {A} e.

Definition res_bind {A B} (m : res A) (k : A → res B) : res B :=
  match m with
  | Ok a => k a
  | Raise e => Raise e
  end.

Notation "'try!' x := m 'in' k" := (res_bind m (λ x, k))
  (at level 10, x name, m at level 100, k at level 200).

(** What the remote service produces for one request: any exception
    inside the [try] block, or a response body. *)
Inductive reply :=
| Failure
| Reply (resp : response).

(** What the lyrics provider produces: an exception, nothing, or a result
    with its optional synced and plain lyrics. *)
Inductive lyrics_reply :=
| LyricsFailure
| NoLyrics
| Lyrics (syncedLyrics plainLyrics : option string).

(** The state the command runs in. [read_only] lists the paths at which
    the tag store refuses to write ([metadata.save()] raises and leaves the
    file as it is); [requests] records the calls made to the remote
    service, in order. *)
Record world := {
  is_dir : bool;
  files : list entry;
  read_only : list (list string);
  cache : gmap (string * string) response;
  requests : list (string * string * nat);
  out : list message
}.

Definition say (m : message) (w : world) : world :=
  {| is_dir := is_dir w; files := files w; read_only := read_only w;
     cache := cache w;
     requests := requests w; out := out w ++ [m] |}.

Definition with_files (fs : list entry) (w : world) : world :=
  {| is_dir := is_dir w; files := fs; read_only := read_only w;
     cache := cache w;
     requests := requests w; out := out w |}.

Definition with_cache (c : gmap (string * string) response) (w : world)
  : world :=
  {| is_dir := is_dir w; files := files w; read_only := read_only w;
     cache := c;
     requests := requests w; out := out w |}.

Definition with_request (r : string * string * nat) (w : world) : world :=
  {| is_dir := is_dir w; files := files w; read_only := read_only w;
     cache := cache w;
     requests := requests w ++ [r]; out := out w |}.

(** *** Directory scan (lines 66-109) *)

(** [metadata.get("ALBUMARTIST", metadata.get("ARTIST"))] *)
Definition local_artist (metadata : FLAC) : option values :=
  match tags metadata !! "ALBUMARTIST" with
  | Some v => Some v
  | None => tags metadata !! "ARTIST"
  end.

(** Find the first item whose album is [album], create one at the end when
    there is none, and append the track to it. *)
Fixpoint add_track (album artist : string) (c : candidate)
    (import_list : list item) : list item :=
  match import_list with
  | [] => [{| it_album := album; it_artist := artist; it_tracks := [c] |}]
  | existing :: rest =>
      if String.eqb (it_album existing) album
      then {| it_album := it_album existing;
              it_artist := it_artist existing;
              it_tracks := it_tracks existing ++ [c] |} :: rest
      else existing :: add_track album artist c rest
  end.

(** One iteration of the loop over [full_path.rglob("*")]. *)
Definition scan_file (force : bool) (st : list item * list message)
    (file : entry) : list item * list message :=
  if negb (e_is_file file && String.eqb (Py.suffix (name (e_path file))) ".flac")
  then st
  else
    match e_flac file with
    | None => (st.1, st.2 ++ [FailedLoading (e_path file)])
    | Some metadata =>
        if bool_decide (is_Some (tags metadata !! "PIZZA")) && negb force
        then st
        else
          match local_artist metadata with
          | None => (st.1, st.2 ++ [SkippingMissingArtist (e_path file)])
          | Some artist =>
              match tags metadata !! "ALBUM" with
              | None => (st.1, st.2 ++ [SkippingMissingAlbum (e_path file)])
              | Some album =>
                  (add_track album.1 artist.1
                     (fst <$> tags metadata !! "TITLE",
                      fst <$> tags metadata !! "TRACK",
                      e_path file) st.1,
                   st.2)
              end
          end
    end.

Definition scan (force : bool) (fs : list entry) : list item * list message :=
  foldl (scan_file force) ([], []) fs.

(** *** Candidate order (line 138) *)

(** [int(x[1]) if x[1] is not None else 0]; [None] stands for the
    [ValueError] of [int]. *)
Definition sort_key (c : candidate) : option Z :=
  match c.1.2 with
  | Some position => Py.int position
  | None => Some 0%Z
  end.

(** Stable insertion by key: the new element goes before the first
    element whose key is not smaller. *)
Fixpoint insert_by_key (k : Z) (c : candidate) (l : list (Z * candidate))
  : list (Z * candidate) :=
  match l with
  | [] => [(k, c)]
  | kc :: rest =>
      if (k <=? kc.1)%Z then (k, c) :: l else kc :: insert_by_key k c rest
  end.

(** [sorted(tracks, key = ...)]: every key is computed first, then the
    list is sorted stably. *)
Definition sorted (l : list candidate) : option (list candidate) :=
  keyed ← mapM (λ c, k ← sort_key c; Some (k, c)) l;
  Some (snd <$> foldr (λ kc acc, insert_by_key kc.1 kc.2 acc) [] keyed).

(** *** Track matching (lines 141-148) *)

(** [x["title"] == title or str(x["position"]) == position] *)
Definition matches (title position : option string) (x : TrackRecord) : bool :=
  bool_decide (Some (t_title x) = title)
  || bool_decide (Some (Py.str (t_position x)) = position).

(** [next(filter(..., response["tracks"]), None)] *)
Definition find_match (title position : option string)
    (tracks : list TrackRecord) : option TrackRecord :=
  List.find (matches title position) tracks.

(** *** Field table (lines 19-28) *)

Definition field_index
  : list (string * (AlbumRecord → TrackRecord → tag_value)) :=
  [ ("DISC", λ r m, Str (Py.str (t_disc m)));
    ("ALBUM", λ r m, Str (r_album r));
    ("TRACK", λ r m, Str (Py.str (t_position m)));
    ("TITLE", λ r m, Str (t_title m));
    ("ARTIST", λ r m, Lst (t_artist m));
    ("ALBUMARTIST", λ r m, Lst (r_artist r));
    ("MUSICBRAINZ_ALBUMID", λ r m, Str (ids_album (r_ids r)));
    ("MUSICBRAINZ_ALBUMARTISTID", λ r m, Str (ids_artist (r_ids r))) ].

Section Update.

(** The tool version, the remote service (its answer may depend on how
    many requests came before), the lyrics provider and the ffmpeg/bpm
    pipeline ([None]: any failure of it; otherwise the rounded value). *)
Context (version : string).
Context (remote : nat → string → string → nat → reply).
Context (lrclib_get : string → string → string → Z → lyrics_reply).
Context (bpm_of : list string → option Z).

(** *** Album resolution (lines 117-130) *)

(** The [try] block: the cached response, or the remote one, stored when
    its data is present; [None] when an exception was caught. *)
Definition resolve (artist album : string) (trackc : nat) (w : world)
  : world * option response :=
  match Cache.find_response artist album (cache w) with
  | Some resp => (w, Some resp)
  | None =>
      let w1 := with_request (artist, album, trackc) w in
      match remote (length (requests w)) artist album trackc with
      | Failure => (w1, None)
      | Reply resp =>
          match data resp with
          | Some _ =>
              (with_cache (Cache.set_response artist album resp (cache w1)) w1,
               Some resp)
          | None => (w1, Some resp)
          end
      end
  end.

(** *** Tag assembly (lines 151-181), on the in-memory object *)

(** The loop over [field_index.items()]. *)
Definition write_fields (r : AlbumRecord) (m : TrackRecord)
    (t : gmap string values) : gmap string values :=
  foldl (λ acc ff, setitem ff.1 (ff.2 r m) acc) t field_index.

Definition write_date (r : AlbumRecord) (t : gmap string values)
  : gmap string values :=
  match r_date r with
  | Some date =>
      setitem "DATE" (Str date)
        (setitem "YEAR" (Str (Py.split_head "-" date)) t)
  | None => t
  end.

(** [result.get("syncedLyrics", result.get("plainLyrics"))
     or result.get("plainLyrics")] *)
Definition final_lyrics (syncedLyrics plainLyrics : option string)
  : option string :=
  if Py.truthy syncedLyrics then syncedLyrics else plainLyrics.

Definition write_lyrics (lyrics : bool) (r : AlbumRecord) (m : TrackRecord)
    (length : Z) (t : gmap string values) : res (gmap string values) :=
  if lyrics then
    match r_artist r with
    | [] => Raise IndexError
    | primary :: _ =>
        match lrclib_get (t_title m) primary (r_album r) length with
        | LyricsFailure => Raise LyricsError
        | NoLyrics => Ok t
        | Lyrics synced plain =>
            match final_lyrics synced plain with
            | Some text => Ok (setitem "LYRICS" (Str text) t)
            | None => Ok t
            end
        end
    end
  else Ok t.

Definition write_bpm (bpm : bool) (file : list string)
    (t : gmap string values) : res (gmap string values) :=
  if bpm then
    match bpm_of file with
    | Some n => Ok (setitem "BPM" (Str (Py.str n)) t)
    | None => Raise BpmError
    end
  else Ok t.

(** From [metadata.clear()] to [metadata["PIZZA"] = __version__]. *)
Definition assemble (lyrics bpm : bool) (r : AlbumRecord) (m : TrackRecord)
    (file : list string) (metadata : FLAC) : res (gmap string values) :=
  let t := write_date r (write_fields r m ∅) in
  try! t := write_lyrics lyrics r m (info_length metadata) t in
  try! t := write_bpm bpm file t in
  Ok (setitem "PIZZA" (Str version) t).

(** *** Per-file processing (lines 138-183) *)

(** [FLAC(file)] on the current state of the tree. *)
Definition open_flac (file : list string) (fs : list entry) : option FLAC :=
  e ← List.find (λ e, bool_decide (e_path e = file)) fs;
  e_flac e.

(** A successful [metadata.save()]: the tags of the file are replaced on
    disk. *)
Definition save (file : list string) (t : gmap string values)
    (fs : list entry) : list entry :=
  (λ e, if bool_decide (e_path e = file)
        then {| e_path := e_path e; e_is_file := e_is_file e;
                e_flac := (λ md, {| tags := t; info_length := info_length md |})
                          <$> e_flac e |}
        else e) <$> fs.

(** Lines 150-183: rewrite the tags of a matched file. The write is the
    last step; where the tag store refuses it, [metadata.save()] raises. *)
Definition update_file (lyrics bpm : bool) (r : AlbumRecord)
    (m : TrackRecord) (file : list string) (w : world) : world * outcome :=
  match open_flac file (files w) with
  | None => (w, Raised MutagenError)
  | Some metadata =>
      match assemble lyrics bpm r m file metadata with
      | Raise e => (w, Raised e)
      | Ok t =>
          if bool_decide (file ∈ read_only w)
          then (w, Raised MutagenError)
          else (say (UpdatedMetadata (name file))
                  (with_files (save file t (files w)) w),
                Done)
      end
  end.

(** One iteration of the loop over the sorted candidates. *)
Definition process_file (lyrics bpm : bool) (r : AlbumRecord)
    (c : candidate) (w : world) : world * outcome :=
  let '(title, position, file) := c in
  if negb (Py.truthy title || Py.truthy position)
  then (say (NoDataToMatch (name file)) w, Done)
  else
    match find_match title position (r_tracks r) with
    | None => (say (NoMatchFound (name file)) w, Done)
    | Some m => update_file lyrics bpm r m file w
    end.

Fixpoint process_tracks (lyrics bpm : bool) (r : AlbumRecord)
    (cs : list candidate) (w : world) : world * outcome :=
  match cs with
  | [] => (w, Done)
  | c :: rest =>
      match process_file lyrics bpm r c w with
      | (w', Done) => process_tracks lyrics bpm r rest w'
      | (w', Raised e) => (w', Raised e)
      end
  end.

(** One iteration of the loop over [import_list] (lines 112-183). *)
Definition process_item (lyrics bpm : bool) (it : item) (w : world)
  : world * outcome :=
  let trackc := length (it_tracks it) in
  let w := say (Header (it_album it) (it_artist it) trackc) w in
  match resolve (it_artist it) (it_album it) trackc w with
  | (w, None) => (say FailedToFetch w, Done)
  | (w, Some resp) =>
      match data resp with
      | None => (say NotFound w, Done)
      | Some r =>
          match sorted (it_tracks it) with
          | None => (w, Raised ValueError)
          | Some cs => process_tracks lyrics bpm r cs w
          end
      end
  end.

Fixpoint process_items (lyrics bpm : bool) (import_list : list item)
    (w : world) : world * outcome :=
  match import_list with
  | [] => (w, Done)
  | it :: rest =>
      match process_item lyrics bpm it w with
      | (w', Done) => process_items lyrics bpm rest w'
      | (w', Raised e) => (w', Raised e)
      end
  end.

(** The [update] command. *)
Definition update (bpm lyrics force : bool) (w : world) : world * outcome :=
  if negb (is_dir w) then (say PathDoesNotExist w, Done)
  else
    let '(import_list, warnings) := scan force (files w) in
    process_items lyrics bpm import_list
      {| is_dir := is_dir w; files := files w; read_only := read_only w;
         cache := cache w;
         requests := requests w; out := out w ++ warnings |}.

End Update.

(** ** Statements read off the prose, for comparison with the code *)

(** The (artist, album) pair of a file's own tags: ALBUMARTIST, else
    ARTIST, together with ALBUM. *)
Definition local_pair (metadata : FLAC) : option (string * string) :=
  artist ← local_artist metadata;
  album ← tags metadata !! "ALBUM";
  Some (artist.1, album.1).

(** The candidate [c] was read from a parseable file of the tree whose
    own tag pair satisfies [P]. *)
Definition read_from (fs : list entry) (c : candidate)
    (P : string * string → Prop) : Prop :=
  ∃ e metadata pair,
    e ∈ fs ∧ e_path e = c.2 ∧ e_flac e = Some metadata ∧
    local_pair metadata = Some pair ∧ P pair.

(** The scan takes the file [e], parsed as [metadata] with tag pair
    [pair], into the import list. *)
Definition accepted (force : bool) (e : entry) (metadata : FLAC)
    (pair : string * string) : Prop :=
  e_is_file e = true ∧ Py.suffix (name (e_path e)) = ".flac" ∧
  e_flac e = Some metadata ∧
  (force = true ∨ tags metadata !! "PIZZA" = None) ∧
  local_pair metadata = Some pair.

(** The tuple appended for an accepted file. *)
Definition candidate_of (e : entry) (metadata : FLAC) : candidate :=
  (fst <$> tags metadata !! "TITLE", fst <$> tags metadata !! "TRACK",
   e_path e).

(** Every member of every group carries the group's (artist, album). *)
Definition members_carry_group_key (force : bool) (fs : list entry) : Prop :=
  ∀ it c, it ∈ (scan force fs).1 → c ∈ it_tracks it →
    read_from fs c (λ pair, pair = (it_artist it, it_album it)).

(** A record satisfies a candidate by title or by stringified position. *)
Definition satisfies (title position : option string) (x : TrackRecord)
  : Prop :=
  Some (t_title x) = title ∨ Some (Py.str (t_position x)) = position.

(** [m] is the first record of [tracks] that satisfies the candidate. *)
Definition first_satisfying (title position : option string)
    (tracks : list TrackRecord) (m : TrackRecord) : Prop :=
  ∃ before after,
    tracks = before ++ m :: after ∧
    satisfies title position m ∧
    Forall (λ x, ¬ satisfies title position x) before.

(** Whenever the candidate has a title or a position, the matcher takes
    the first satisfying record and goes on to rewrite the file with it. *)
Definition selects_first_when_present (version : string)
    (lrclib_get : string → string → string → Z → lyrics_reply)
    (bpm_of : list string → option Z) (lyrics bpm : bool)
    (r : AlbumRecord) (c : candidate) (w : world) : Prop :=
  is_Some c.1.1 ∨ is_Some c.1.2 →
  ∀ m, first_satisfying c.1.1 c.1.2 (r_tracks r) m →
       process_file version lrclib_get bpm_of lyrics bpm r c w
       = update_file version lrclib_get bpm_of lyrics bpm r m c.2 w.

(** The name of a file ends with [ext]. *)
Definition ends_with (ext s : string) : Prop := ∃ stem, s = stem +:+ ext.


(** The names a rewritten file can carry. *)
Definition field_names : list string :=
  [ "DISC"; "ALBUM"; "TRACK"; "TITLE"; "ARTIST"; "ALBUMARTIST";
    "MUSICBRAINZ_ALBUMID"; "MUSICBRAINZ_ALBUMARTISTID";
    "YEAR"; "DATE"; "LYRICS"; "BPM"; "PIZZA" ].

(** The stored form of a list of values: absent when the list is empty. *)
Definition stored (l : list string) : option values :=
  match l with
  | [] => None
  | s :: rest => Some (s, rest)
  end.

(** What a key holds after a value was assigned to it. *)
Definition value_of (v : tag_value) : option values :=
  match v with
  | Str s => Some (s, [])
  | Lst l => stored l
  end.

(** An enrichment of the file cannot be obtained: lyrics are asked for and
    the album has no artist to ask with or the provider fails, or the BPM
    is asked for and the pipeline fails. *)
Definition enrichment_fails
    (lrclib_get : string → string → string → Z → lyrics_reply)
    (bpm_of : list string → option Z) (lyrics bpm : bool)
    (r : AlbumRecord) (m : TrackRecord) (file : list string)
    (metadata : FLAC) : Prop :=
  (lyrics = true
   ∧ (r_artist r = []
      ∨ ∃ primary others,
          r_artist r = primary :: others
          ∧ lrclib_get (t_title m) primary (r_album r) (info_length metadata)
            = LyricsFailure))
  ∨ (bpm = true ∧ bpm_of file = None).

(** [text] and [beat] are the enrichments obtained for the file: lyrics
    only when asked for and delivered, the BPM exactly when asked for. *)
Definition enrichments
    (lrclib_get : string → string → string → Z → lyrics_reply)
    (bpm_of : list string → option Z) (lyrics bpm : bool)
    (r : AlbumRecord) (m : TrackRecord) (file : list string)
    (metadata : FLAC) (text : option string) (beat : option Z) : Prop :=
  (if lyrics
   then ∃ primary others,
          r_artist r = primary :: others
          ∧ match lrclib_get (t_title m) primary (r_album r)
                    (info_length metadata) with
            | LyricsFailure => False
            | NoLyrics => text = None
            | Lyrics synced plain => text = final_lyrics synced plain
            end
   else text = None)
  ∧ (if bpm then bpm_of file = beat ∧ is_Some beat else beat = None).

(** Repeated resolution of one key. *)
Fixpoint resolve_times (remote : nat → string → string → nat → reply)
    (n : nat) (artist album : string) (trackc : nat) (w : world) : world :=
  match n with
  | 0 => w
  | S n' =>
      resolve_times remote n' artist album trackc
        (resolve remote artist album trackc w).1
  end.

(** The group [it] is skipped in the world [w]: processing it ends
    normally in the world that differs from [w] by the requests [sent]
    and by the group's header and the [warning] on the console, the run
    over [it :: rest] is the run over [rest] from that world, and the
    console of the whole run starts with the header and the warning. *)
Definition group_skipped (version : string)
    (remote : nat → string → string → nat → reply)
    (lrclib_get : string → string → string → Z → lyrics_reply)
    (bpm_of : list string → option Z) (lyrics bpm : bool)
    (it : item) (rest : list item) (w : world)
    (sent : list (string * string * nat)) (warning : message) : Prop :=
  let header :=
    Header (it_album it) (it_artist it) (length (it_tracks it)) in
  let w' :=
    {| is_dir := is_dir w; files := files w; read_only := read_only w;
       cache := cache w; requests := requests w ++ sent;
       out := out w ++ [header; warning] |} in
  process_item version remote lrclib_get bpm_of lyrics bpm it w = (w', Done)
  ∧ process_items version remote lrclib_get bpm_of lyrics bpm (it :: rest) w
    = process_items version remote lrclib_get bpm_of lyrics bpm rest w'
  ∧ (out w ++ [header; warning])
      `prefix_of`
      out (process_items version remote lrclib_get bpm_of lyrics bpm
             (it :: rest) w).1.

(** A decimal integer string: an optional sign followed by one or more
    of the digits 0 to 9, and nothing else. *)
Definition decimal_integer_string (s : string) : bool :=
  let digits (l : list ascii) :=
    match l with
    | [] => false
    | _ => forallb (λ c, bool_decide (is_Some (Py.digit_of c))) l
    end in
  match String.list_ascii_of_string s with
  | [] => false
  | c :: rest =>
      if Ascii.eqb c "-" || Ascii.eqb c "+" then digits rest
      else digits (c :: rest)
  end.


(** ** Concrete inputs *)

Module Sample.

Definition flac_of (kvs : list (string * string)) : FLAC :=
  {| tags := list_to_map ((λ kv, (kv.1, (kv.2, []))) <$> kvs);
     info_length := 180 |}.

Definition file_of (path : list string) (kvs : list (string * string))
  : entry :=
  {| e_path := path; e_is_file := true; e_flac := Some (flac_of kvs) |}.

(** Two files of one album title by two different artists. *)
Definition a1 : entry :=
  file_of ["music"; "x"; "01.flac"]
    [("ARTIST", "X"); ("ALBUM", "Y"); ("TITLE", "A"); ("TRACK", "1")].
Definition a2 : entry :=
  file_of ["music"; "z"; "02.flac"]
    [("ARTIST", "Z"); ("ALBUM", "Y"); ("TITLE", "B"); ("TRACK", "2")].

(** An already processed file, an unparseable one, a directory, and
    files the scan does not look at. *)
Definition marked_tags : list (string * string) :=
  [("ARTIST", "X"); ("ALBUM", "Y"); ("TITLE", "C"); ("TRACK", "3");
   ("PIZZA", "0.1.0"); ("COMMENT", "ripped")].
Definition marked : entry := file_of ["music"; "x"; "03.flac"] marked_tags.
Definition broken : entry :=
  {| e_path := ["music"; "bad.flac"]; e_is_file := true; e_flac := None |}.
Definition cover : entry :=
  {| e_path := ["music"; "x"; "cover.jpg"]; e_is_file := true;
     e_flac := None |}.
Definition folder : entry :=
  {| e_path := ["music"; "x.flac"]; e_is_file := false; e_flac := None |}.
Definition vinyl : entry :=
  file_of ["music"; "x"; "04.flac"]
    [("ARTIST", "X"); ("ALBUM", "Y"); ("TITLE", "D"); ("TRACK", "A1")].
Definition untitled : entry :=
  file_of ["music"; "x"; "05.flac"]
    [("ARTIST", "X"); ("ALBUM", "Y"); ("TITLE", "")].

Definition rec_a : TrackRecord :=
  {| t_disc := 1; t_artist := ["X"]; t_title := "A"; t_position := 1 |}.
Definition rec_b : TrackRecord :=
  {| t_disc := 1; t_artist := ["X"; "W"]; t_title := "B"; t_position := 2 |}.
Definition rec_c : TrackRecord :=
  {| t_disc := 1; t_artist := ["X"]; t_title := "C"; t_position := 3 |}.
Definition rec_blank : TrackRecord :=
  {| t_disc := 1; t_artist := ["X"]; t_title := ""; t_position := 4 |}.

Definition album_y : AlbumRecord :=
  {| r_ids := {| ids_album := "mb-album"; ids_artist := "mb-artist" |};
     r_artist := ["X"]; r_date := Some "2020-01-02"; r_album := "Y";
     r_tracks := [rec_a; rec_b; rec_c; rec_blank] |}.

Definition found : response := App.route_api_find (Some album_y).
Definition missing : response := App.route_api_find None.

Definition version : string := "0.1.0".

(** A service that knows album "Y" by "X" and nothing else, one that
    never finds anything, and one that is down. *)
Definition remote_y (k : nat) (artist album : string) (trackc : nat)
  : reply :=
  if String.eqb artist "X" && String.eqb album "Y"
  then Reply found else Reply missing.
Definition remote_none (k : nat) (artist album : string) (trackc : nat)
  : reply := Reply missing.
Definition remote_down (k : nat) (artist album : string) (trackc : nat)
  : reply := Failure.

Definition lrclib_plain (title artist album : string) (length : Z)
  : lyrics_reply := Lyrics None (Some "la la").

Definition bpm_120 (file : list string) : option Z := Some 120%Z.
Definition bpm_broken (file : list string) : option Z := None.

Definition world_of (fs : list entry) : world :=
  {| is_dir := true; files := fs; read_only := []; cache := ∅;
     requests := []; out := [] |}.


(** A service that is down for artist "Z" and otherwise knows album "Y"
    by "X" only. *)
Definition remote_flaky (k : nat) (artist album : string) (trackc : nat)
  : reply :=
  if String.eqb artist "Z" then Failure else remote_y k artist album trackc.

(** The groups of a file of album "Q" by "Z" and of [a1]. *)
Definition group_q : item :=
  {| it_album := "Q"; it_artist := "Z";
     it_tracks := [(Some "T", Some "1", ["music"; "z"; "q.flac"])] |}.
Definition group_y : item :=
  {| it_album := "Y"; it_artist := "X";
     it_tracks := [(Some "A", Some "1", e_path a1)] |}.

(** A world in which the negative answer for album "Q" by "Z" was put
    into the cache. *)
Definition world_cached (fs : list entry) : world :=
  {| is_dir := true; files := fs; read_only := [];
     cache := Cache.set_response "Z" "Q" missing ∅;
     requests := []; out := [] |}.

(** A three-disc release: 10, 12 and 3 tracks announced. *)
Definition mb_track (position title : string) : App.track :=
  {| App.trk_position := position;
     App.trk_recording :=
       {| App.rec_title := title;
          App.rec_artist_credit :=
            [App.Credit "id-x" "X"; App.JoinPhrase " & ";
             App.Credit "id-w" "W"] |} |}.

Definition three_discs : App.release :=
  {| App.rel_id := "mb-album";
     App.rel_artist_credit := [App.Credit "id-x" "X"];
     App.rel_date := Some "2020-01-02";
     App.rel_title := "Y";
     App.medium_list :=
       [ {| App.track_count := 10;
            App.track_list := [mb_track "3" "a"; mb_track "4" "b"] |};
         {| App.track_count := 12;
            App.track_list := [mb_track "5" "c"] |};
         {| App.track_count := 3;
            App.track_list := [mb_track "1" "d"] |} ] |}.

(** A one-disc release whose first track has the position "A1". *)
Definition vinyl_release : App.release :=
  {| App.rel_id := "mb-album";
     App.rel_artist_credit := [App.Credit "id-x" "X"];
     App.rel_date := Some "2020-01-02";
     App.rel_title := "Y";
     App.medium_list :=
       [ {| App.track_count := 2;
            App.track_list := [mb_track "A1" "a"; mb_track "2" "b"] |} ] |}.

End Sample.

(** ** Further statements about the scan and the run *)

(** The entry is a regular file with suffix [.flac]. *)
Definition is_flac (e : entry) : bool :=
  e_is_file e && String.eqb (Py.suffix (name (e_path e))) ".flac".

(** The entry is passed over because it carries the marker. *)
Definition skipped_by_marker (force : bool) (e : entry) : bool :=
  is_flac e
  && match e_flac e with
     | Some metadata =>
         bool_decide (is_Some (tags metadata !! "PIZZA")) && negb force
     | None => false
     end.

(** What the scan files for one entry: the album and the artist read from
    it and its tuple, when the entry is accepted. *)
Definition scan_entry (force : bool) (e : entry)
  : option (string * string * candidate) :=
  if is_flac e && negb (skipped_by_marker force e) then
    metadata ← e_flac e;
    artist ← local_artist metadata;
    album ← tags metadata !! "ALBUM";
    Some (album.1, artist.1, candidate_of e metadata)
  else None.

(** The tuples of the accepted files of the tree whose ALBUM is [album],
    in the order of the tree. *)
Definition group_tracks (force : bool) (album : string) (fs : list entry)
  : list candidate :=
  omap (λ e, match scan_entry force e with
             | Some (al, _, c) => if String.eqb al album then Some c else None
             | None => None
             end) fs.

(** Number of tuples over all groups. *)
Definition total_tracks (import_list : list item) : nat :=
  sum_list (length ∘ it_tracks <$> import_list).

(** The request sent for a group. *)
Definition request_of (it : item) : string * string * nat :=
  (it_artist it, it_album it, length (it_tracks it)).

(** [e'] is [e] with its tags replaced by a set that carries the marker;
    path, kind and stream duration are the same. *)
Definition rewritten (version : string) (e e' : entry) : Prop :=
  e_path e' = e_path e ∧ e_is_file e' = e_is_file e
  ∧ ∃ metadata metadata',
      e_flac e = Some metadata ∧ e_flac e' = Some metadata'
      ∧ info_length metadata' = info_length metadata
      ∧ tags metadata' !! "PIZZA" = Some (version, []).

(** The tree [fs'] is [fs] where some entries at paths in [P] were
    rewritten, possibly several times. *)
Definition evolved (version : string) (P : list string → Prop)
    (fs fs' : list entry) : Prop :=
  Forall2 (λ e e', e' = e ∨ (P (e_path e) ∧ rewritten version e e')) fs fs'.

(** The paths of the tuples of a list of groups. *)
Definition scanned (import_list : list item) (path : list string) : Prop :=
  ∃ it c, it ∈ import_list ∧ c ∈ it_tracks it ∧ c.2 = path.

(** ** The search of the service: [search_musicbrainz] *)

Section Service.

(** The two calls to the MusicBrainz client: the ids of the releases found
    for (album, artist, track count), and the release of an id; [None]
    stands for an exception of the client. *)
Context (search_releases : string → string → nat → option (list string)).
Context (get_release_by_id : string → option App.release).

(** [None]: an exception; [Some None]: nothing found. *)
Definition search_musicbrainz (artist album : string) (trackc : nat)
  : option (option AlbumRecord) :=
  results ← search_releases album artist trackc;
  match results with
  | [] => Some None
  | first :: _ =>
      data ← get_release_by_id first;
      r ← App.grab_musicbrainz data;
      Some (Some r)
  end.

End Service.


(** Every listed track position of the release is plain. *)
Definition plain_positions (data : App.release) : bool :=
  forallb (λ med, forallb (λ t, Py.plain (App.trk_position t))
                    (App.track_list med))
    (App.medium_list data).

(** ** Concrete inputs for the service *)

Module Sample_service.

(** A two-disc release, two and three tracks, numbered from 1 on each
    disc. *)
Definition two_discs : App.release :=
  {| App.rel_id := "mb-double";
     App.rel_artist_credit :=
       [App.Credit "id-x" "X"; App.JoinPhrase " feat. "; App.Credit "id-w" "W"];
     App.rel_date := None;
     App.rel_title := "Double";
     App.medium_list :=
       [ {| App.track_count := 2;
            App.track_list :=
              [Sample.mb_track "1" "a"; Sample.mb_track "2" "b"] |};
         {| App.track_count := 3;
            App.track_list :=
              [Sample.mb_track "1" "c"; Sample.mb_track "2" "d";
               Sample.mb_track "3" "e"] |} ] |}.

(** A search that finds two releases for album "Double" and nothing else,
    and a client that knows the first of them. *)
Definition search (album artist : string) (trackc : nat)
  : option (list string) :=
  if String.eqb album "Double" then Some ["mb-double"; "mb-other"]
  else Some [].

Definition get_release (mbid : string) : option App.release :=
  if String.eqb mbid "mb-double" then Some two_discs else None.

End Sample_service.

(** * Properties *)

(** ** Position normalisation on the service side *)

Lemma tracks_before_cons (m : App.medium) (rest : list App.medium) (k : nat) :
  App.tracks_before (m :: rest) (S k)
  = length (App.track_list m) + App.tracks_before rest k.
Proof. reflexivity. Qed.

Lemma fill_tracks_lookup (data : App.release) (media : list App.medium) :
  ∀ (index : nat) (built : list TrackRecord) (k : nat) (med : App.medium)
    (j : nat) (t : App.track),
    App.fill_tracks data index media = Some built →
    media !! k = Some med →
    App.track_list med !! j = Some t →
    ∃ tr, built !! (App.tracks_before media k + j) = Some tr
          ∧ App.track_entry data (index + k) t = Some tr.
Proof.
  induction media as [|m rest IH]; intros index built k med j t Hfill Hk Hj.
  - by rewrite lookup_nil in Hk.
  - simpl in Hfill.
    destruct (mapM (App.track_entry data index) (App.track_list m))
      as [entries|] eqn:Hentries; [|done].
    destruct (App.fill_tracks data (S index) rest) as [more|] eqn:Hmore;
      [|done].
    simpl in Hfill. injection Hfill as <-.
    apply mapM_Some in Hentries.
    destruct k as [|k].
    + injection Hk as ->.
      destruct (Forall2_lookup_l _ _ _ _ _ Hentries Hj) as (tr & Htr & Hentry).
      exists tr. split.
      * unfold App.tracks_before. simpl. by apply lookup_app_l_Some.
      * by rewrite Nat.add_0_r.
    + destruct (IH (S index) more k med j t Hmore Hk Hj) as (tr & Htr & Hentry).
      exists tr. split.
      * rewrite tracks_before_cons, <- Nat.add_assoc.
        rewrite (Forall2_length _ _ _ Hentries).
        by rewrite lookup_app_r, Nat.add_comm, Nat.add_sub by lia.
      * by rewrite <- Nat.add_succ_comm.
Qed.

(** C3. In a record built by [grab_musicbrainz], the track listed at place
    [j] of the medium at 0-based index [i] gets as position its published
    position when [i = 0], and its published position plus the track count
    of the medium at [i - 1] alone when [i > 0]. *)
Theorem grab_musicbrainz_position (data : App.release) (r : AlbumRecord)
    (i j : nat) (med : App.medium) (t : App.track) :
  App.grab_musicbrainz data = Some r →
  App.medium_list data !! i = Some med →
  App.track_list med !! j = Some t →
  ∃ raw tr,
    Py.int (App.trk_position t) = Some raw ∧
    r_tracks r !! (App.tracks_before (App.medium_list data) i + j) = Some tr ∧
    t_disc tr = (Z.of_nat i + 1)%Z ∧
    match i with
    | 0 => t_position tr = raw
    | S before =>
        ∃ prev, App.medium_list data !! before = Some prev
                ∧ t_position tr = (raw + App.track_count prev)%Z
    end.
Proof.
  intros Hgrab Hi Hj. unfold App.grab_musicbrainz in Hgrab.
  destruct (App.rel_artist_credit data) as [|[aid aname|] credits];
    simpl in Hgrab; try done.
  destruct (App.fill_tracks data 0 (App.medium_list data)) as [built|] eqn:Hfill;
    simpl in Hgrab; [|done].
  injection Hgrab as <-. simpl.
  destruct (fill_tracks_lookup _ _ _ _ _ _ _ _ Hfill Hi Hj) as (tr & Htr & Hentry).
  simpl in Hentry. unfold App.track_entry in Hentry.
  destruct i as [|before]; simpl in Hentry.
  - destruct (Py.int (App.trk_position t)) as [raw|]; simpl in Hentry; [|done].
    injection Hentry as <-. exists raw. by eexists.
  - rewrite Nat.sub_0_r in Hentry.
    destruct (Py.int (App.trk_position t)) as [raw|]; simpl in Hentry; [|done].
    destruct (App.medium_list data !! before) as [prev|] eqn:Hprev;
      simpl in Hentry; [|done].
    injection Hentry as <-. exists raw. eexists. simpl.
    split_and!; [done|done|simpl; lia|by exists prev].
Qed.

(** The third disc of [Sample.three_discs]: position 1, offset by the 12
    tracks of the second disc, not by the 22 of both earlier discs. *)
Lemma grab_musicbrainz_position_witness :
  ∃ raw tr,
    Py.int "1" = Some raw ∧
    [ {| t_disc := 1; t_artist := ["X"; "W"]; t_title := "a"; t_position := 3 |};
      {| t_disc := 1; t_artist := ["X"; "W"]; t_title := "b"; t_position := 4 |};
      {| t_disc := 2; t_artist := ["X"; "W"]; t_title := "c"; t_position := 15 |};
      {| t_disc := 3; t_artist := ["X"; "W"]; t_title := "d"; t_position := 13 |} ]
      !! 3 = Some tr ∧
    t_disc tr = 3%Z ∧
    ∃ prev, App.medium_list Sample.three_discs !! 1 = Some prev
            ∧ t_position tr = (raw + App.track_count prev)%Z.
Proof.
  exact (grab_musicbrainz_position Sample.three_discs _ 2 0 _ _
           eq_refl eq_refl eq_refl).
Defined.

(** The examples of the prose: the fifth track of the second disc after a
    ten-track first disc is at 15; a track of the first disc keeps its
    position. The offset of a third disc is not cumulative. *)
Example position_examples :
  t_position <$> (r_tracks <$> App.grab_musicbrainz Sample.three_discs)
                   ≫= (.!! 2) = Some 15%Z
  ∧ t_position <$> (r_tracks <$> App.grab_musicbrainz Sample.three_discs)
                     ≫= (.!! 0) = Some 3%Z
  ∧ t_position <$> (r_tracks <$> App.grab_musicbrainz Sample.three_discs)
                     ≫= (.!! 3) = Some 13%Z.
Proof. by vm_compute. Qed.

(** ** Which files the scan looks at *)

Lemma string_of_list_ascii_app (a b : list ascii) :
  String.string_of_list_ascii (a ++ b)
  = String.string_of_list_ascii a +:+ String.string_of_list_ascii b.
Proof. induction a as [|c a IH]; simpl; [done|]. by rewrite IH. Qed.

Lemma suffix_ends_with (ext file_name : string) :
  ext ≠ "" → Py.suffix file_name = ext → ends_with ext file_name.
Proof.
  intros Hext Hsuffix. unfold Py.suffix in Hsuffix.
  destruct (Py.rfind_dot 0 (String.list_ascii_of_string file_name)) as [i|];
    [|congruence].
  case_bool_decide; [|congruence].
  exists (String.string_of_list_ascii
            (take i (String.list_ascii_of_string file_name))).
  rewrite <- Hsuffix, <- string_of_list_ascii_app, take_drop.
  by rewrite String.string_of_list_ascii_of_string.
Qed.

Lemma scan_snoc (force : bool) (fs : list entry) (e : entry) :
  scan force (fs ++ [e]) = scan_file force (scan force fs) e.
Proof. unfold scan. by rewrite foldl_app. Qed.

Lemma scan_skip (force : bool) (fs1 fs2 : list entry) (e : entry) :
  (∀ st, scan_file force st e = st) →
  scan force (fs1 ++ e :: fs2) = scan force (fs1 ++ fs2).
Proof.
  intros Hskip. unfold scan. rewrite !foldl_app. simpl. by rewrite Hskip.
Qed.

(** C10. An entry that is not a regular file whose name ends in [.flac]
    leaves the import list and the console untouched, whatever parsing it
    would give; the scan is the one of the tree without it. *)
Theorem scan_ignores_other_files (force : bool) (e : entry)
    (fs1 fs2 : list entry) :
  ¬ (e_is_file e = true ∧ ends_with ".flac" (name (e_path e))) →
  (∀ st, scan_file force st e = st)
  ∧ scan force (fs1 ++ e :: fs2) = scan force (fs1 ++ fs2).
Proof.
  intros Hother.
  assert (∀ st, scan_file force st e = st) as Hskip.
  { intros st. unfold scan_file.
    destruct (e_is_file e) eqn:Hfile; [|done]. simpl.
    destruct (String.eqb_spec (Py.suffix (name (e_path e))) ".flac")
      as [Hsuffix|]; [|done].
    destruct Hother. split; [done|]. by apply suffix_ends_with. }
  split; [done|]. by apply scan_skip.
Qed.

Lemma scan_ignores_other_files_witness :
  (∀ st, scan_file false st Sample.folder = st)
  ∧ scan false ([Sample.a1] ++ Sample.folder :: [Sample.a2])
    = scan false ([Sample.a1] ++ [Sample.a2]).
Proof.
  apply (scan_ignores_other_files false Sample.folder [Sample.a1] [Sample.a2]).
  simpl. intros [Hfile _]. discriminate Hfile.
Defined.

(** A cover image and a file called [.FLAC] are passed over as well; a
    regular [.flac] file is looked at. *)
Example scan_file_examples :
  scan_file false ([], []) Sample.cover = ([], [])
  ∧ Py.suffix "01.FLAC" ≠ ".flac"
  ∧ scan_file false ([], []) Sample.broken
    = ([], [FailedLoading ["music"; "bad.flac"]]).
Proof. split_and!; by vm_compute. Qed.

(** ** Track matching *)

Lemma matches_satisfies (title position : option string) (x : TrackRecord) :
  matches title position x = true ↔ satisfies title position x.
Proof.
  unfold matches, satisfies.
  rewrite orb_true_iff, !bool_decide_eq_true. done.
Qed.

Lemma find_first {A} (f : A → bool) (l : list A) :
  match List.find f l with
  | Some m =>
      ∃ before after,
        l = before ++ m :: after ∧ f m = true
        ∧ Forall (λ x, f x = false) before
  | None => Forall (λ x, f x = false) l
  end.
Proof.
  induction l as [|x l IH]; simpl; [by constructor|].
  destruct (f x) eqn:Hx.
  - by exists [], l.
  - destruct (List.find f l) as [m|].
    + destruct IH as (before & after & -> & Hm & Hbefore).
      exists (x :: before), after. split_and!; [done|done|by constructor].
    + by constructor.
Qed.

Lemma find_match_first (title position : option string)
    (tracks : list TrackRecord) :
  match find_match title position tracks with
  | Some m => first_satisfying title position tracks m
  | None => Forall (λ x, ¬ satisfies title position x) tracks
  end.
Proof.
  unfold find_match.
  pose proof (find_first (matches title position) tracks) as Hfind.
  assert (∀ l, Forall (λ x, matches title position x = false) l →
               Forall (λ x, ¬ satisfies title position x) l) as Hnone.
  { intros l Hl. eapply Forall_impl; [exact Hl|]. intros x Hx Hsat.
    apply matches_satisfies in Hsat. congruence. }
  destruct (List.find (matches title position) tracks) as [m|].
  - destruct Hfind as (before & after & -> & Hm & Hbefore).
    exists before, after. split_and!; [done| |by apply Hnone].
    by apply matches_satisfies.
  - by apply Hnone.
Qed.

(** The first satisfying record of a list is unique. *)
Lemma first_satisfying_unique (title position : option string)
    (tracks : list TrackRecord) (m1 m2 : TrackRecord) :
  first_satisfying title position tracks m1 →
  first_satisfying title position tracks m2 → m1 = m2.
Proof.
  intros (b1 & a1 & -> & Hm1 & Hb1) (b2 & a2 & Heq & Hm2 & Hb2).
  revert b2 Heq Hb2. induction b1 as [|x b1 IH]; intros b2 Heq Hb2.
  - destruct b2 as [|y b2]; simpl in Heq; [congruence|].
    injection Heq as -> _. by apply Forall_cons_1 in Hb2 as [? _].
  - destruct b2 as [|y b2]; simpl in Heq.
    + injection Heq as -> _. by apply Forall_cons_1 in Hb1 as [? _].
    + injection Heq as -> Heq. apply Forall_cons_1 in Hb1 as [_ Hb1].
      apply Forall_cons_1 in Hb2 as [_ Hb2]. by apply (IH Hb1 b2).
Qed.

Section Matching.

Context (version : string).
Context (lrclib_get : string → string → string → Z → lyrics_reply).
Context (bpm_of : list string → option Z).

(** C2, amended. For a candidate whose title or position is present and
    not empty, the file is rewritten with the first record of the track
    list, in order, whose title equals the candidate's title or whose
    stringified position equals the candidate's raw position; when no
    record does, the file is reported as unmatched. *)
Theorem first_match_wins (lyrics bpm : bool) (r : AlbumRecord)
    (title position : option string) (file : list string) (w : world) :
  Py.truthy title || Py.truthy position = true →
  (∃ m, first_satisfying title position (r_tracks r) m
        ∧ (∀ m', first_satisfying title position (r_tracks r) m' → m' = m)
        ∧ process_file version lrclib_get bpm_of lyrics bpm r
            (title, position, file) w
          = update_file version lrclib_get bpm_of lyrics bpm r m file w)
  ∨ (Forall (λ x, ¬ satisfies title position x) (r_tracks r)
     ∧ process_file version lrclib_get bpm_of lyrics bpm r
         (title, position, file) w
       = (say (NoMatchFound (name file)) w, Done)).
Proof.
  intros Hdata. unfold process_file. rewrite Hdata. simpl.
  pose proof (find_match_first title position (r_tracks r)) as Hfind.
  destruct (find_match title position (r_tracks r)) as [m|].
  - left. exists m. split_and!; [done| |done].
    intros m' Hm'. by eapply first_satisfying_unique.
  - by right.
Qed.

End Matching.

(** The record titled "B" is taken for a candidate with title "B" and
    position "1" only if no earlier record satisfies it; here the record
    at position 1 does, by position. *)
Lemma first_match_wins_witness :
  (∃ m, first_satisfying (Some "B") (Some "1") (r_tracks Sample.album_y) m
        ∧ (∀ m', first_satisfying (Some "B") (Some "1")
                   (r_tracks Sample.album_y) m' → m' = m)
        ∧ process_file Sample.version Sample.lrclib_plain Sample.bpm_120
            false false Sample.album_y
            (Some "B", Some "1", e_path Sample.a2) (Sample.world_of [Sample.a2])
          = update_file Sample.version Sample.lrclib_plain Sample.bpm_120
              false false Sample.album_y m (e_path Sample.a2)
              (Sample.world_of [Sample.a2]))
  ∨ (Forall (λ x, ¬ satisfies (Some "B") (Some "1") x)
       (r_tracks Sample.album_y)
     ∧ process_file Sample.version Sample.lrclib_plain Sample.bpm_120
         false false Sample.album_y
         (Some "B", Some "1", e_path Sample.a2) (Sample.world_of [Sample.a2])
       = (say (NoMatchFound (name (e_path Sample.a2)))
            (Sample.world_of [Sample.a2]), Done)).
Proof.
  apply (first_match_wins Sample.version Sample.lrclib_plain Sample.bpm_120
           false false Sample.album_y (Some "B") (Some "1")
           (e_path Sample.a2) (Sample.world_of [Sample.a2])).
  reflexivity.
Defined.

(** The example of the prose: among records "A" at 1 and "B" at 2, the
    candidate ("B", no position) gets "B", and the candidate ("B", "1")
    gets "A", which satisfies it by position and comes first. *)
Example matching_precedence :
  find_match (Some "B") None [Sample.rec_a; Sample.rec_b] = Some Sample.rec_b
  ∧ find_match (Some "B") (Some "1") [Sample.rec_a; Sample.rec_b]
    = Some Sample.rec_a
  ∧ find_match (Some "B") (Some "01") [Sample.rec_a; Sample.rec_b]
    = Some Sample.rec_b.
Proof. split_and!; by vm_compute. Qed.

(** C2 as stated fails: a file whose TITLE tag is present but empty, and
    which has no TRACK tag, is reported as having no data to match, although
    the fourth record of the album satisfies it by title. *)
Lemma empty_title_is_not_matched :
  ¬ selects_first_when_present Sample.version Sample.lrclib_plain
      Sample.bpm_120 false false Sample.album_y
      (Some "", None, e_path Sample.untitled)
      (Sample.world_of [Sample.untitled]).
Proof.
  intros Hclaim.
  specialize (Hclaim (or_introl (mk_is_Some _ _ eq_refl)) Sample.rec_blank).
  assert (first_satisfying (Some "") None (r_tracks Sample.album_y)
            Sample.rec_blank) as Hfirst.
  { exists [Sample.rec_a; Sample.rec_b; Sample.rec_c], [].
    split_and!; [done|by left|].
    repeat constructor; by intros [?|?]. }
  specialize (Hclaim Hfirst).
  apply (f_equal (λ x, out x.1)) in Hclaim. vm_compute in Hclaim.
  discriminate Hclaim.
Qed.

(** ** Grouping by the scan *)

Lemma scan_file_cases (force : bool) (st : list item * list message)
    (e : entry) :
  (scan_file force st e).1 = st.1
  ∨ ∃ metadata pair,
      accepted force e metadata pair
      ∧ scan_file force st e
        = (add_track pair.2 pair.1 (candidate_of e metadata) st.1, st.2).
Proof.
  unfold scan_file.
  destruct (e_is_file e) eqn:Hfile; simpl; [|by left].
  destruct (String.eqb_spec (Py.suffix (name (e_path e))) ".flac")
    as [Hsuffix|]; simpl; [|by left].
  destruct (e_flac e) as [metadata|] eqn:Hflac; [|by left].
  destruct (bool_decide (is_Some (tags metadata !! "PIZZA")) && negb force)
    eqn:Hmarker; [by left|].
  destruct (local_artist metadata) as [artist|] eqn:Hartist; [|by left].
  destruct (tags metadata !! "ALBUM") as [album|] eqn:Halbum; [|by left].
  right. exists metadata, (artist.1, album.1). split; [|done].
  split_and!; try done.
  - apply andb_false_iff in Hmarker as [Hmarker|Hforce].
    + right. apply bool_decide_eq_false in Hmarker.
      by apply eq_None_not_Some.
    + left. by destruct force.
  - unfold local_pair. by rewrite Hartist, Halbum.
Qed.

Lemma scan_file_accepted (force : bool) (st : list item * list message)
    (e : entry) (metadata : FLAC) (pair : string * string) :
  accepted force e metadata pair →
  scan_file force st e
  = (add_track pair.2 pair.1 (candidate_of e metadata) st.1, st.2).
Proof.
  intros (Hfile & Hsuffix & Hflac & Hmarker & Hpair).
  unfold scan_file. rewrite Hfile, Hsuffix, Hflac. simpl.
  unfold local_pair in Hpair.
  destruct (local_artist metadata) as [artist|]; simpl in Hpair; [|done].
  destruct (tags metadata !! "ALBUM") as [album|]; simpl in Hpair; [|done].
  injection Hpair as <-.
  destruct Hmarker as [-> | ->]; simpl.
  - by rewrite andb_false_r.
  - done.
Qed.

(** What [add_track] does to the albums, and where its members come from. *)
Lemma add_track_albums (album artist : string) (c : candidate)
    (il : list item) :
  it_album <$> add_track album artist c il
  = if bool_decide (album ∈ it_album <$> il)
    then it_album <$> il
    else (it_album <$> il) ++ [album].
Proof.
  induction il as [|it il IH]; [done|].
  rewrite fmap_cons. cbn [add_track].
  destruct (String.eqb_spec (it_album it) album) as [Heq|Hne].
  - rewrite bool_decide_eq_true_2; [done|]. rewrite Heq. by left.
  - rewrite fmap_cons, IH. case_bool_decide as Hin.
    + rewrite bool_decide_eq_true_2; [done|]. by right.
    + rewrite bool_decide_eq_false_2; [done|].
      intros [?|?]%elem_of_cons; congruence.
Qed.

Lemma add_track_elem (album artist : string) (c : candidate)
    (il : list item) (it' : item) :
  it' ∈ add_track album artist c il →
  it' ∈ il
  ∨ it' = {| it_album := album; it_artist := artist; it_tracks := [c] |}
  ∨ ∃ it, it ∈ il ∧ it_album it = album
          ∧ it' = {| it_album := it_album it; it_artist := it_artist it;
                     it_tracks := it_tracks it ++ [c] |}.
Proof.
  induction il as [|it il IH]; simpl.
  - intros ->%list_elem_of_singleton. by right; left.
  - destruct (String.eqb_spec (it_album it) album) as [Heq|Hne].
    + intros [->|Hin]%elem_of_cons.
      * right; right. exists it. split_and!; [by left|done|done].
      * left. by right.
    + intros [->|Hin]%elem_of_cons; [left; by left|].
      destruct (IH Hin) as [?|[?|(it0 & ? & ? & ?)]].
      * left. by right.
      * by right; left.
      * right; right. exists it0. split_and!; [by right|done|done].
Qed.

(** A file that went into the list stays where it is put. *)
Lemma add_track_keeps (album artist : string) (c c0 : candidate)
    (il : list item) (album0 : string) :
  (∃ it, it ∈ il ∧ it_album it = album0 ∧ c0 ∈ it_tracks it) →
  ∃ it, it ∈ add_track album artist c il ∧ it_album it = album0
        ∧ c0 ∈ it_tracks it.
Proof.
  induction il as [|it il IH]; intros (it0 & Hin & Halbum & Hc0).
  - by apply elem_of_nil in Hin.
  - simpl. destruct (String.eqb_spec (it_album it) album) as [Heq|Hne].
    + apply elem_of_cons in Hin as [->|Hin].
      * eexists. split; [by left|]. simpl. split; [done|].
        apply elem_of_app. by left.
      * exists it0. split; [by right|done].
    + apply elem_of_cons in Hin as [->|Hin].
      * exists it. split; [by left|done].
      * destruct IH as (it1 & ? & ? & ?); [by exists it0|].
        exists it1. split; [by right|done].
Qed.

Lemma add_track_puts (album artist : string) (c : candidate)
    (il : list item) :
  ∃ it, it ∈ add_track album artist c il ∧ it_album it = album
        ∧ c ∈ it_tracks it.
Proof.
  induction il as [|it il IH]; simpl.
  - eexists. split; [by left|]. simpl. split; [done|by left].
  - destruct (String.eqb_spec (it_album it) album) as [Heq|Hne].
    + eexists. split; [by left|]. simpl. split; [done|].
      apply elem_of_app. right. by left.
    + destruct IH as (it1 & ? & ? & ?). exists it1. split; [by right|done].
Qed.

Lemma read_from_more (fs : list entry) (e : entry) (c : candidate)
    (P : string * string → Prop) :
  read_from fs c P → read_from (fs ++ [e]) c P.
Proof.
  intros (e0 & metadata & pair & Hin & Hrest).
  exists e0, metadata, pair. split; [|done]. apply elem_of_app. by left.
Qed.

Lemma read_from_accepted (force : bool) (fs : list entry) (e : entry)
    (metadata : FLAC) (pair : string * string) (P : string * string → Prop) :
  accepted force e metadata pair → P pair →
  read_from (fs ++ [e]) (candidate_of e metadata) P.
Proof.
  intros (_ & _ & Hflac & _ & Hpair) HP.
  exists e, metadata, pair. split_and!; try done.
  apply elem_of_app. right. by left.
Qed.

(** What holds of the import list after any prefix of the scan. *)
Lemma scan_invariant (force : bool) (fs : list entry) :
  NoDup (it_album <$> (scan force fs).1)
  ∧ ∀ it, it ∈ (scan force fs).1 →
      (∀ c, c ∈ it_tracks it →
            read_from fs c (λ pair, pair.2 = it_album it))
      ∧ ∃ first, head (it_tracks it) = Some first
                 ∧ read_from fs first
                     (λ pair, pair = (it_artist it, it_album it)).
Proof.
  induction fs as [|e fs IH] using rev_ind.
  - split; [constructor|]. by intros it ?%elem_of_nil.
  - rewrite scan_snoc. destruct IH as [Hnodup Hmembers].
    destruct (scan_file_cases force (scan force fs) e)
      as [Hsame|(metadata & [artist album] & Hacc & ->)].
    + rewrite Hsame. split; [done|]. intros it Hit.
      destruct (Hmembers it Hit) as [Hall (first & Hhead & Hfirst)].
      split.
      * intros c Hc. by apply read_from_more, Hall.
      * exists first. split; [done|]. by apply read_from_more.
    + simpl. split.
      * rewrite add_track_albums. case_bool_decide as Hin; [done|].
        apply NoDup_app. split_and!; [done| |apply NoDup_singleton].
        by intros x Hx ->%list_elem_of_singleton.
      * intros it' Hit'.
        apply add_track_elem in Hit' as [Hold|[->|(it & Hit & Halbum & ->)]].
        -- destruct (Hmembers it' Hold) as [Hall (first & Hhead & Hfirst)].
           split.
           ++ intros c Hc. by apply read_from_more, Hall.
           ++ exists first. split; [done|]. by apply read_from_more.
        -- simpl. split.
           ++ intros c ->%list_elem_of_singleton.
              by eapply read_from_accepted.
           ++ eexists. split; [done|]. by eapply read_from_accepted.
        -- destruct (Hmembers it Hit) as [Hall (first & Hhead & Hfirst)].
           simpl. split.
           ++ intros c [Hc| ->%list_elem_of_singleton]%elem_of_app.
              ** by apply read_from_more, Hall.
              ** eapply read_from_accepted; [done|]. by simpl.
           ++ exists first. split; [|by apply read_from_more].
              destruct (it_tracks it); [done|]. by simpl in *.
Qed.

(** Every accepted file is a member of the group of its album. *)
Lemma scan_places (force : bool) (fs : list entry) (e : entry)
    (metadata : FLAC) (pair : string * string) :
  e ∈ fs → accepted force e metadata pair →
  ∃ it, it ∈ (scan force fs).1 ∧ it_album it = pair.2
        ∧ candidate_of e metadata ∈ it_tracks it.
Proof.
  induction fs as [|e' fs IH] using rev_ind; intros Hin Hacc.
  - by apply elem_of_nil in Hin.
  - rewrite scan_snoc.
    apply elem_of_app in Hin as [Hin| ->%list_elem_of_singleton].
    + specialize (IH Hin Hacc).
      destruct (scan_file_cases force (scan force fs) e')
        as [Hsame|(metadata' & pair' & Hacc' & ->)].
      * by rewrite Hsame.
      * simpl. by apply add_track_keeps.
    + rewrite (scan_file_accepted _ _ _ _ _ Hacc). simpl.
      apply add_track_puts.
Qed.

Lemma NoDup_fmap_elem {A B} (f : A → B) (l : list A) (x y : A) :
  NoDup (f <$> l) → x ∈ l → y ∈ l → f x = f y → x = y.
Proof.
  intros Hnodup [i Hi]%list_elem_of_lookup [j Hj]%list_elem_of_lookup Heq.
  assert (i = j) as ->; [|congruence].
  apply (NoDup_lookup _ _ _ (f x) Hnodup).
  - by rewrite list_lookup_fmap, Hi.
  - by rewrite list_lookup_fmap, Hj, Heq.
Qed.

(** C1, amended. For every group produced by a directory scan, every
    member file's ALBUM tag, as read from the file's own tags, equals the
    group's album exactly, and the group's artist is the artist
    (ALBUMARTIST, else ARTIST) of its first member; within one scan there
    is exactly one group per album title, hence at most one per
    (artist, album) pair, and every accepted file is a member of the group
    of its album. *)
Theorem groups_keyed_by_album (force : bool) (fs : list entry) :
  (∀ it c, it ∈ (scan force fs).1 → c ∈ it_tracks it →
     read_from fs c (λ pair, pair.2 = it_album it))
  ∧ (∀ it, it ∈ (scan force fs).1 →
       ∃ first, head (it_tracks it) = Some first
                ∧ read_from fs first
                    (λ pair, pair = (it_artist it, it_album it)))
  ∧ (∀ it1 it2, it1 ∈ (scan force fs).1 → it2 ∈ (scan force fs).1 →
       it_album it1 = it_album it2 → it1 = it2)
  ∧ (∀ e metadata pair, e ∈ fs → accepted force e metadata pair →
       ∃ it, it ∈ (scan force fs).1 ∧ it_album it = pair.2
             ∧ candidate_of e metadata ∈ it_tracks it).
Proof.
  destruct (scan_invariant force fs) as [Hnodup Hmembers].
  split_and!.
  - intros it c Hit Hc. by apply (Hmembers it Hit).
  - intros it Hit. by apply (Hmembers it Hit).
  - intros it1 it2 H1 H2 Heq. by eapply NoDup_fmap_elem.
  - intros e metadata pair. apply scan_places.
Qed.

(** In the scan of [Sample.a1] and [Sample.a2] the second file sits in the
    group of album "Y", it carries that album, and the group's artist "X"
    is the one of the first file. *)
Lemma groups_keyed_by_album_witness :
  read_from [Sample.a1; Sample.a2]
    (Some "B", Some "2", ["music"; "z"; "02.flac"])
    (λ pair, pair.2 = "Y").
Proof.
  apply (proj1 (groups_keyed_by_album false [Sample.a1; Sample.a2])
           {| it_album := "Y"; it_artist := "X";
              it_tracks := [(Some "A", Some "1", ["music"; "x"; "01.flac"]);
                            (Some "B", Some "2", ["music"; "z"; "02.flac"])] |}).
  - vm_compute. constructor.
  - simpl. right. left.
Defined.

(** C1 as stated fails: two files with the same ALBUM and different
    ARTIST tags land in one group, whose key is the pair of the first;
    the second file's own pair is ("Z", "Y"), the group's is ("X", "Y"). *)
Lemma same_album_two_artists :
  ¬ members_carry_group_key false [Sample.a1; Sample.a2].
Proof.
  intros Hclaim.
  destruct (Hclaim
    {| it_album := "Y"; it_artist := "X";
       it_tracks := [(Some "A", Some "1", ["music"; "x"; "01.flac"]);
                     (Some "B", Some "2", ["music"; "z"; "02.flac"])] |}
    (Some "B", Some "2", ["music"; "z"; "02.flac"]))
    as (e & metadata & pair & Hin & Hpath & Hflac & Hpair & Hkey).
  - vm_compute. constructor.
  - simpl. right. left.
  - simpl in Hpath, Hkey.
    apply elem_of_cons in Hin as [->|Hin]; [discriminate Hpath|].
    apply list_elem_of_singleton in Hin as ->.
    injection Hflac as <-. vm_compute in Hpair. congruence.
Qed.

(** ** Tag assembly and write-back *)

Lemma lookup_setitem (key k : string) (v : tag_value)
    (t : gmap string values) :
  setitem key v t !! k = if decide (key = k) then value_of v else t !! k.
Proof.
  destruct v as [s|[|s rest]]; simpl.
  - apply lookup_insert.
  - apply lookup_delete.
  - apply lookup_insert.
Qed.

Ltac tag_lookup :=
  repeat (rewrite lookup_setitem;
          let Hkey := fresh "Hkey" in
          case_decide as Hkey;
          [try discriminate Hkey; try congruence
          |try (by destruct Hkey); try congruence]);
  rewrite ?lookup_empty.

Lemma open_flac_save (file : list string) (t : gmap string values)
    (fs : list entry) (metadata : FLAC) :
  open_flac file fs = Some metadata →
  open_flac file (save file t fs)
  = Some {| tags := t; info_length := info_length metadata |}.
Proof.
  unfold open_flac, save. induction fs as [|e fs IH]; simpl; [done|].
  case_bool_decide as Hpath; simpl.
  - rewrite bool_decide_eq_true_2 by done. simpl. by intros ->.
  - rewrite bool_decide_eq_false_2 by done. apply IH.
Qed.

Lemma save_other (file : list string) (t : gmap string values)
    (fs : list entry) (e : entry) :
  e ∈ fs → e_path e ≠ file → e ∈ save file t fs.
Proof.
  intros Hin Hpath. unfold save. apply list_elem_of_fmap.
  exists e. split; [|done]. by rewrite bool_decide_eq_false_2.
Qed.

Section Assembly.

Context (version : string).
Context (lrclib_get : string → string → string → Z → lyrics_reply).
Context (bpm_of : list string → option Z).

Lemma write_fields_lookup (r : AlbumRecord) (m : TrackRecord) (k : string) :
  write_date r (write_fields r m ∅) !! k
  = if decide (k = "DISC") then Some (Py.str (t_disc m), [])
    else if decide (k = "ALBUM") then Some (r_album r, [])
    else if decide (k = "TRACK") then Some (Py.str (t_position m), [])
    else if decide (k = "TITLE") then Some (t_title m, [])
    else if decide (k = "ARTIST") then stored (t_artist m)
    else if decide (k = "ALBUMARTIST") then stored (r_artist r)
    else if decide (k = "MUSICBRAINZ_ALBUMID")
         then Some (ids_album (r_ids r), [])
    else if decide (k = "MUSICBRAINZ_ALBUMARTISTID")
         then Some (ids_artist (r_ids r), [])
    else if decide (k = "YEAR")
         then (λ date, (Py.split_head "-" date, [])) <$> r_date r
    else if decide (k = "DATE") then (λ date, (date, [])) <$> r_date r
    else None.
Proof.
  unfold write_date, write_fields. cbn [foldl field_index fst snd].
  repeat (case_decide;
          [subst k; destruct (r_date r); lazy beta iota; tag_lookup;
           reflexivity|]).
  destruct (r_date r); lazy beta iota; tag_lookup; reflexivity.
Qed.

(** The tags assembled for a file: the field table and the date, then
    the lyrics [text] and the BPM [beat] when asked for and obtained,
    then the marker. *)
Lemma assemble_fields (lyrics bpm : bool) (r : AlbumRecord)
    (m : TrackRecord) (file : list string) (metadata : FLAC)
    (t : gmap string values) :
  assemble version lrclib_get bpm_of lyrics bpm r m file metadata = Ok t →
  ∃ (text : option string) (beat : option Z),
    (∀ k, t !! k
          = if decide (k = "PIZZA") then Some (version, [])
            else if decide (k = "BPM") then (λ n, (Py.str n, [])) <$> beat
            else if decide (k = "LYRICS") then (λ x, (x, [])) <$> text
            else write_date r (write_fields r m ∅) !! k)
    ∧ (if lyrics
       then ∃ primary others,
              r_artist r = primary :: others
              ∧ match lrclib_get (t_title m) primary (r_album r)
                        (info_length metadata) with
                | LyricsFailure => False
                | NoLyrics => text = None
                | Lyrics synced plain => text = final_lyrics synced plain
                end
       else text = None)
    ∧ (if bpm then bpm_of file = beat ∧ is_Some beat else beat = None).
Proof.
  unfold assemble, write_lyrics, write_bpm.
  set (base := write_date r (write_fields r m ∅)).
  assert (base !! "LYRICS" = None ∧ base !! "BPM" = None) as [Hl Hb].
  { unfold base. by rewrite !write_fields_lookup. }
  clearbody base. intros Hok.
  assert (∃ (text : option string) (t1 : gmap string values),
            (∀ k, t1 !! k = if decide (k = "LYRICS")
                            then (λ x, (x, [])) <$> text else base !! k)
            ∧ (if lyrics
               then ∃ primary others,
                      r_artist r = primary :: others
                      ∧ match lrclib_get (t_title m) primary (r_album r)
                                (info_length metadata) with
                        | LyricsFailure => False
                        | NoLyrics => text = None
                        | Lyrics synced plain =>
                            text = final_lyrics synced plain
                        end
               else text = None)
            ∧ res_bind (if bpm
                        then match bpm_of file with
                             | Some n => Ok (setitem "BPM" (Str (Py.str n)) t1)
                             | None => Raise BpmError
                             end
                        else Ok t1)
                       (λ t2, Ok (setitem "PIZZA" (Str version) t2)) = Ok t)
    as (text & t1 & Ht1 & Hlyrics & Hrest).
  { destruct lyrics.
    - destruct (r_artist r) as [|primary others] eqn:Hartist; [done|].
      destruct (lrclib_get (t_title m) primary (r_album r)
                  (info_length metadata)) as [| |synced plain] eqn:Hget;
        [done| |].
      + exists None, base. split; [|split; [by exists primary, others; rewrite Hget|done]].
        intros k. case_decide; by subst.
      + destruct (final_lyrics synced plain) as [text|] eqn:Hfinal.
        * exists (Some text), (setitem "LYRICS" (Str text) base).
          split; [|split; [by exists primary, others; rewrite Hget|done]].
          intros k. rewrite lookup_setitem.
          repeat case_decide; by subst.
        * exists None, base.
          split; [|split; [by exists primary, others; rewrite Hget|done]].
          intros k. case_decide; by subst.
    - exists None, base. split; [|split; done].
      intros k. case_decide; by subst. }
  exists text.
  destruct bpm.
  - destruct (bpm_of file) as [n|] eqn:Hbpm; [|done].
    cbn [res_bind] in Hrest. injection Hrest as <-.
    exists (Some n). split; [|split; done].
    intros k. rewrite !lookup_insert, Ht1.
    repeat case_decide; by subst.
  - cbn [res_bind] in Hrest. injection Hrest as <-.
    exists None. split; [|split; done].
    intros k. rewrite lookup_insert, Ht1.
    repeat case_decide; by subst.
Qed.

(** Assembly fails exactly when an enrichment cannot be obtained, and it
    does not look at the tags the file had. *)
Lemma assemble_raise (lyrics bpm : bool) (r : AlbumRecord)
    (m : TrackRecord) (file : list string) (metadata : FLAC) :
  enrichment_fails lrclib_get bpm_of lyrics bpm r m file metadata
  ↔ ∃ e, assemble version lrclib_get bpm_of lyrics bpm r m file metadata
         = Raise e.
Proof.
  unfold enrichment_fails, assemble, write_lyrics, write_bpm. split.
  - intros [[-> [Hartist|(primary & others & Hartist & Hget)]]|[-> Hbpm]].
    + rewrite Hartist. by eexists.
    + rewrite Hartist, Hget. by eexists.
    + rewrite Hbpm.
      destruct lyrics; [|by eexists].
      destruct (r_artist r) as [|primary others]; [by eexists|].
      destruct (lrclib_get _ _ _ _) as [| |synced plain]; try by eexists.
      destruct (final_lyrics synced plain); by eexists.
  - intros [e He].
    destruct lyrics.
    + destruct (r_artist r) as [|primary others] eqn:Hartist;
        [left; split; [done|by left]|].
      destruct (lrclib_get (t_title m) primary (r_album r)
                  (info_length metadata)) as [| |synced plain] eqn:Hget.
      * left. split; [done|]. right. by exists primary, others.
      * right. destruct bpm; [|done].
        by destruct (bpm_of file).
      * right. destruct bpm;
          [|by destruct (final_lyrics synced plain)].
        destruct (bpm_of file); [|done].
        by destruct (final_lyrics synced plain).
    + right. destruct bpm; [|done]. by destruct (bpm_of file).
Qed.

Lemma update_file_cases (lyrics bpm : bool) (r : AlbumRecord)
    (m : TrackRecord) (file : list string) (w : world) :
  (open_flac file (files w) = None
   ∧ update_file version lrclib_get bpm_of lyrics bpm r m file w
     = (w, Raised MutagenError))
  ∨ (∃ metadata e,
       open_flac file (files w) = Some metadata
       ∧ assemble version lrclib_get bpm_of lyrics bpm r m file metadata
         = Raise e
       ∧ update_file version lrclib_get bpm_of lyrics bpm r m file w
         = (w, Raised e))
  ∨ (∃ metadata t,
       open_flac file (files w) = Some metadata
       ∧ assemble version lrclib_get bpm_of lyrics bpm r m file metadata
         = Ok t
       ∧ file ∈ read_only w
       ∧ update_file version lrclib_get bpm_of lyrics bpm r m file w
         = (w, Raised MutagenError))
  ∨ (∃ metadata t,
       open_flac file (files w) = Some metadata
       ∧ assemble version lrclib_get bpm_of lyrics bpm r m file metadata
         = Ok t
       ∧ (file ∉ read_only w)
       ∧ update_file version lrclib_get bpm_of lyrics bpm r m file w
         = (say (UpdatedMetadata (name file))
              (with_files (save file t (files w)) w), Done)).
Proof.
  unfold update_file.
  destruct (open_flac file (files w)) as [metadata|]; [|by left].
  destruct (assemble version lrclib_get bpm_of lyrics bpm r m file metadata)
    as [t|e] eqn:Hassemble.
  - case_bool_decide as Hwrite.
    + right; right; left. by exists metadata, t.
    + right; right; right. by exists metadata, t.
  - right; left. by exists metadata, e.
Qed.

End Assembly.

Section Writing.

Context (version : string).
Context (lrclib_get : string → string → string → Z → lyrics_reply).
Context (bpm_of : list string → option Z).

(** C9. A successful update of a file leaves it with exactly the
    assembled fields: the eight of the table (a list-valued one only when
    its list is not empty), YEAR and DATE when the record has a date,
    LYRICS and BPM when obtained, and the marker; the set does not depend
    on the tags the file had, and no other key remains. *)
Theorem update_replaces_tag_set (lyrics bpm : bool) (r : AlbumRecord)
    (m : TrackRecord) (file : list string) (w w' : world) :
  update_file version lrclib_get bpm_of lyrics bpm r m file w = (w', Done) →
  ∃ old t text beat,
    open_flac file (files w) = Some old
    ∧ open_flac file (files w')
      = Some {| tags := t; info_length := info_length old |}
    ∧ (∀ former,
         assemble version lrclib_get bpm_of lyrics bpm r m file
           {| tags := former; info_length := info_length old |} = Ok t)
    ∧ enrichments lrclib_get bpm_of lyrics bpm r m file old text beat
    ∧ t !! "DISC" = Some (Py.str (t_disc m), [])
    ∧ t !! "ALBUM" = Some (r_album r, [])
    ∧ t !! "TRACK" = Some (Py.str (t_position m), [])
    ∧ t !! "TITLE" = Some (t_title m, [])
    ∧ t !! "ARTIST" = stored (t_artist m)
    ∧ t !! "ALBUMARTIST" = stored (r_artist r)
    ∧ t !! "MUSICBRAINZ_ALBUMID" = Some (ids_album (r_ids r), [])
    ∧ t !! "MUSICBRAINZ_ALBUMARTISTID" = Some (ids_artist (r_ids r), [])
    ∧ t !! "YEAR" = (λ date, (Py.split_head "-" date, [])) <$> r_date r
    ∧ t !! "DATE" = (λ date, (date, [])) <$> r_date r
    ∧ t !! "LYRICS" = (λ x, (x, [])) <$> text
    ∧ t !! "BPM" = (λ n, (Py.str n, [])) <$> beat
    ∧ t !! "PIZZA" = Some (version, [])
    ∧ (∀ k, k ∉ field_names → t !! k = None).
Proof.
  intros Hupdate.
  destruct (update_file_cases version lrclib_get bpm_of lyrics bpm r m file w)
    as [[_ Heq]|[(old & e & _ & _ & Heq)|[(old & t & _ & _ & _ & Heq)
       |(old & t & Hopen & Hassemble & _ & Heq)]]];
    rewrite Heq in Hupdate; try discriminate Hupdate.
  injection Hupdate as <-.
  destruct (assemble_fields _ _ _ _ _ _ _ _ _ _ Hassemble)
    as (text & beat & Hlookup & Henrich).
  exists old, t, text, beat.
  split; [done|]. split; [by apply open_flac_save|].
  split; [by intros former|]. split; [done|].
  split_and!;
    try (rewrite Hlookup, ?write_fields_lookup;
         repeat (case_decide; [discriminate|]); by repeat case_decide).
  intros k Hk. unfold field_names in Hk.
  repeat (apply not_elem_of_cons in Hk as [? Hk]).
  rewrite Hlookup, write_fields_lookup.
  by repeat (case_decide; [congruence|]).
Qed.

(** C6. Processing a file either leaves every file of the tree as it
    was, or replaces this file's tags by a completely assembled set,
    with the enrichments asked for; when an enrichment of a matched,
    readable file cannot be obtained the command stops with the world
    unchanged, and so it is after any exception. *)
Theorem persistence_all_or_nothing (lyrics bpm : bool) (r : AlbumRecord)
    (c : candidate) (w : world) :
  let result := process_file version lrclib_get bpm_of lyrics bpm r c w in
  (files result.1 = files w
   ∨ ∃ m metadata t text beat,
       open_flac c.2 (files w) = Some metadata
       ∧ assemble version lrclib_get bpm_of lyrics bpm r m c.2 metadata
         = Ok t
       ∧ enrichments lrclib_get bpm_of lyrics bpm r m c.2 metadata text beat
       ∧ t !! "LYRICS" = (λ x, (x, [])) <$> text
       ∧ t !! "BPM" = (λ n, (Py.str n, [])) <$> beat
       ∧ t !! "PIZZA" = Some (version, [])
       ∧ result.2 = Done
       ∧ files result.1 = save c.2 t (files w))
  ∧ (∀ m metadata,
       Py.truthy c.1.1 || Py.truthy c.1.2 = true →
       find_match c.1.1 c.1.2 (r_tracks r) = Some m →
       open_flac c.2 (files w) = Some metadata →
       enrichment_fails lrclib_get bpm_of lyrics bpm r m c.2 metadata →
       ∃ e, result = (w, Raised e))
  ∧ (∀ e, result.2 = Raised e → result.1 = w).
Proof.
  destruct c as [[title position] file]. simpl. unfold process_file.
  destruct (Py.truthy title || Py.truthy position) eqn:Hdata; simpl.
  2: { split_and!; [by left|done|done]. }
  destruct (find_match title position (r_tracks r)) as [m|] eqn:Hmatch.
  2: { split_and!; [by left|done|done]. }
  destruct (update_file_cases version lrclib_get bpm_of lyrics bpm r m file w)
    as [[Hopen Heq]|[(old & e & Hopen & Hassemble & Heq)
                    |[(old & t & Hopen & Hassemble & _ & Heq)
                     |(old & t & Hopen & Hassemble & _ & Heq)]]];
    rewrite Heq; simpl.
  - split_and!; [by left| |by intros e _].
    intros m' metadata _ _ Hopen'. congruence.
  - split_and!; [by left| |by intros e' _].
    intros m' metadata _ _ _ _. by exists e.
  - split_and!; [by left| |by intros e' _].
    intros m' metadata _ _ _ _. by exists MutagenError.
  - split_and!; [|  |done].
    + right.
      destruct (assemble_fields _ _ _ _ _ _ _ _ _ _ Hassemble)
        as (text & beat & Hlookup & Henrich).
      exists m, old, t, text, beat.
      split_and!; try done; rewrite Hlookup; by repeat case_decide.
    + intros m' metadata _ [= <-] Hopen' Hfails. exfalso.
      rewrite Hopen in Hopen'. injection Hopen' as <-.
      apply (assemble_raise version) in Hfails as [e He]. congruence.
Qed.

End Writing.

(** The already processed file [Sample.marked], matched with the third
    record: its COMMENT tag is gone and the marker is the tool version. *)
Lemma update_replaces_tag_set_witness :
  ∃ old t,
    open_flac (e_path Sample.marked) [Sample.a1; Sample.marked] = Some old
    ∧ open_flac (e_path Sample.marked)
        (files (update_file Sample.version Sample.lrclib_plain Sample.bpm_120
                  true true Sample.album_y Sample.rec_c
                  (e_path Sample.marked)
                  (Sample.world_of [Sample.a1; Sample.marked])).1)
      = Some {| tags := t; info_length := info_length old |}
    ∧ tags old !! "COMMENT" = Some ("ripped", [])
    ∧ t !! "COMMENT" = None
    ∧ t !! "BPM" = Some ("120", [])
    ∧ t !! "PIZZA" = Some (Sample.version, []).
Proof.
  destruct (update_replaces_tag_set Sample.version Sample.lrclib_plain
              Sample.bpm_120 true true Sample.album_y Sample.rec_c
              (e_path Sample.marked)
              (Sample.world_of [Sample.a1; Sample.marked])
              (update_file Sample.version Sample.lrclib_plain Sample.bpm_120
                 true true Sample.album_y Sample.rec_c
                 (e_path Sample.marked)
                 (Sample.world_of [Sample.a1; Sample.marked])).1)
    as (old & t & text & beat & Hold & Hnew & _ & [_ [Hbeat _]] & Hfields).
  - by vm_compute.
  - exists old, t. split; [done|]. split; [done|].
    destruct Hfields as (_ & _ & _ & _ & _ & _ & _ & _ & _ & _ & _
                         & Hbpm & Hmarker & Hnone).
    split_and!; [| |by rewrite Hbpm, <- Hbeat|done].
    + vm_compute in Hold. by injection Hold as <-.
    + apply Hnone. unfold field_names.
      repeat (apply not_elem_of_cons; split; [discriminate|]).
      apply not_elem_of_nil.
Defined.

(** With a BPM pipeline that fails, the first sample file is matched and
    read, and the command stops without having touched anything. *)
Lemma persistence_all_or_nothing_witness :
  ∃ e, process_file Sample.version Sample.lrclib_plain Sample.bpm_broken
         false true Sample.album_y
         (Some "A", Some "1", e_path Sample.a1) (Sample.world_of [Sample.a1])
       = (Sample.world_of [Sample.a1], Raised e).
Proof.
  apply (proj1 (proj2 (persistence_all_or_nothing Sample.version
                         Sample.lrclib_plain Sample.bpm_broken false true
                         Sample.album_y
                         (Some "A", Some "1", e_path Sample.a1)
                         (Sample.world_of [Sample.a1])))
           Sample.rec_a
           (Sample.flac_of [("ARTIST", "X"); ("ALBUM", "Y"); ("TITLE", "A");
                            ("TRACK", "1")])).
  - reflexivity.
  - reflexivity.
  - reflexivity.
  - right. split; reflexivity.
Defined.

(** ** The processed marker *)



Section Marker.

Context (version : string).
Context (lrclib_get : string → string → string → Z → lyrics_reply).
Context (bpm_of : list string → option Z).


End Marker.


(** ** Candidate order *)

Lemma insert_by_key_perm (k : Z) (c : candidate) (l : list (Z * candidate)) :
  insert_by_key k c l ≡ₚ (k, c) :: l.
Proof.
  induction l as [|kc l IH]; simpl; [done|].
  destruct (k <=? kc.1)%Z; [done|].
  rewrite IH. apply Permutation_swap.
Qed.

Lemma insert_by_key_sorted (k : Z) (c : candidate) (l : list (Z * candidate)) :
  Sorted Z.le (fst <$> l) → Sorted Z.le (fst <$> insert_by_key k c l).
Proof.
  induction l as [|kc l IH]; simpl; intros Hsorted.
  - by repeat constructor.
  - destruct (Z.leb_spec k kc.1) as [Hle|Hgt]; simpl.
    + constructor; [done|]. by constructor.
    + apply Sorted_inv in Hsorted as [Hrest Hhead].
      constructor; [by apply IH|].
      destruct l as [|kc' l]; simpl.
      * constructor. simpl. lia.
      * destruct (Z.leb_spec k kc'.1); simpl; constructor; simpl; [lia|].
        by apply HdRel_inv in Hhead.
Qed.


(** When every position parses, the candidates come out as a rearrangement
    of the group's tracks in ascending order of [sort_key]. *)
Lemma sorted_Some (l l' : list candidate) :
  sorted l = Some l' →
  l' ≡ₚ l
  ∧ ∃ keys, Forall2 (λ c k, sort_key c = Some k) l' keys ∧ Sorted Z.le keys.
Proof.
  unfold sorted. intros Hsorted.
  destruct (mapM _ l) as [keyed|] eqn:Hkeyed; simpl in Hsorted; [|done].
  injection Hsorted as <-.
  apply mapM_Some in Hkeyed.
  assert (snd <$> keyed = l ∧ Forall (λ kc, sort_key kc.2 = Some kc.1) keyed)
    as [Hsnd Hkeys].
  { induction Hkeyed as [|c kc l keyed Hc _ [IH1 IH2]]; [by split|].
    destruct (sort_key c) as [k|] eqn:Hk; simpl in Hc; [|done].
    injection Hc as <-. split; [by rewrite fmap_cons, IH1|]. by constructor. }
  clear Hkeyed.
  set (out := foldr (λ kc acc, insert_by_key kc.1 kc.2 acc) [] keyed).
  assert (out ≡ₚ keyed ∧ Sorted Z.le (fst <$> out)) as [Hperm Hord].
  { unfold out. clear. induction keyed as [|[k c] keyed [IH1 IH2]]; simpl.
    - split; [done|constructor].
    - split; [by rewrite insert_by_key_perm, IH1|].
      by apply insert_by_key_sorted. }
  split; [by rewrite Hperm, Hsnd|].
  exists (fst <$> out). split; [|done].
  rewrite <- Hperm in Hkeys. clear -Hkeys.
  induction Hkeys as [|kc rest Hkc _ IH]; simpl; by constructor.
Qed.

(** ** Album resolution and the loop over the groups *)

Section Resolution.

Context (version : string).
Context (remote : nat → string → string → nat → reply).
Context (lrclib_get : string → string → string → Z → lyrics_reply).
Context (bpm_of : list string → option Z).

(** Resolution touches neither the files nor the console. *)
Lemma resolve_frame (artist album : string) (trackc : nat) (w : world) :
  files (resolve remote artist album trackc w).1 = files w
  ∧ out (resolve remote artist album trackc w).1 = out w
  ∧ is_dir (resolve remote artist album trackc w).1 = is_dir w.
Proof.
  unfold resolve.
  destruct (Cache.find_response artist album (cache w)); [done|].
  destruct (remote _ _ _ _) as [|resp]; [done|].
  by destruct (data resp).
Qed.

(** The cache is written only with a response that carries a record. *)
Lemma resolve_cache (artist album : string) (trackc : nat) (w : world) :
  cache (resolve remote artist album trackc w).1 = cache w
  ∨ ∃ resp r,
      Cache.find_response artist album (cache w) = None
      ∧ remote (length (requests w)) artist album trackc = Reply resp
      ∧ data resp = Some r
      ∧ cache (resolve remote artist album trackc w).1
        = Cache.set_response artist album resp (cache w).
Proof.
  unfold resolve.
  destruct (Cache.find_response artist album (cache w)); [by left|].
  destruct (remote _ _ _ _) as [|resp]; [by left|].
  destruct (data resp) as [r|] eqn:Hdata; [|by left].
  right. by exists resp, r.
Qed.

(** A miss answered without a record: one request, nothing stored. *)
Lemma resolve_nothing (artist album : string) (trackc : nat) (w : world) :
  Cache.find_response artist album (cache w) = None →
  (∀ resp, remote (length (requests w)) artist album trackc = Reply resp →
           data resp = None) →
  (resolve remote artist album trackc w).1
  = with_request (artist, album, trackc) w.
Proof.
  intros Hmiss Hnothing. unfold resolve. rewrite Hmiss.
  destruct (remote _ _ _ _) as [|resp] eqn:Hreply; [done|].
  by rewrite (Hnothing resp).
Qed.

(** C4. The cache changes only by storing a response whose data is
    present; and for a key that is not cached and for which the remote
    service never delivers a record, any number of resolutions leave the
    cache as it was and send one request each. *)
Theorem negative_lookup_never_cached (artist album : string)
    (trackc : nat) :
  (∀ w, cache (resolve remote artist album trackc w).1 = cache w
        ∨ ∃ resp r,
            remote (length (requests w)) artist album trackc = Reply resp
            ∧ data resp = Some r
            ∧ cache (resolve remote artist album trackc w).1
              = Cache.set_response artist album resp (cache w))
  ∧ (∀ n w,
       Cache.find_response artist album (cache w) = None →
       (∀ k resp, remote k artist album trackc = Reply resp →
                  data resp = None) →
       cache (resolve_times remote n artist album trackc w) = cache w
       ∧ requests (resolve_times remote n artist album trackc w)
         = requests w ++ replicate n (artist, album, trackc)).
Proof.
  split.
  - intros w.
    destruct (resolve_cache artist album trackc w)
      as [?|(resp & r & _ & ? & ? & ?)]; [by left|].
    right. by exists resp, r.
  - induction n as [|n IH]; intros w Hmiss Hnothing; simpl.
    + by rewrite app_nil_r.
    + rewrite resolve_nothing by eauto.
      destruct (IH (with_request (artist, album, trackc) w)) as [Hc Hr];
        [done|done|].
      rewrite Hc, Hr. simpl. split; [done|]. by rewrite <- app_assoc.
Qed.

Lemma process_file_out (lyrics bpm : bool) (r : AlbumRecord)
    (c : candidate) (w : world) :
  out w `prefix_of`
    out (process_file version lrclib_get bpm_of lyrics bpm r c w).1.
Proof.
  destruct c as [[title position] file]. unfold process_file.
  destruct (negb _); [by apply prefix_app_r|].
  destruct (find_match _ _ _) as [m|]; [|by apply prefix_app_r].
  unfold update_file.
  destruct (open_flac _ _) as [metadata|]; [|done].
  destruct (assemble _ _ _ _ _ _ _ _ _) as [t|e]; [|done].
  destruct (bool_decide _); [done|]. by apply prefix_app_r.
Qed.

Lemma process_tracks_out (lyrics bpm : bool) (r : AlbumRecord)
    (l : list candidate) (w : world) :
  out w `prefix_of`
    out (process_tracks version lrclib_get bpm_of lyrics bpm r l w).1.
Proof.
  revert w. induction l as [|c l IH]; intros w; simpl; [done|].
  pose proof (process_file_out lyrics bpm r c w) as Hfile.
  destruct (process_file _ _ _ _ _ _ _ _) as [w1 [|e]]; simpl in *;
    [|done].
  etrans; [exact Hfile|apply IH].
Qed.

Lemma process_item_out (lyrics bpm : bool) (it : item) (w : world) :
  (out w ++ [Header (it_album it) (it_artist it) (length (it_tracks it))])
    `prefix_of`
    out (process_item version remote lrclib_get bpm_of lyrics bpm it w).1.
Proof.
  unfold process_item.
  pose proof (resolve_frame (it_artist it) (it_album it)
                (length (it_tracks it))
                (say (Header (it_album it) (it_artist it)
                        (length (it_tracks it))) w)) as (_ & Hout & _).
  destruct (resolve _ _ _ _ _) as [w1 [resp|]]; simpl in Hout.
  - destruct (data resp) as [r|]; simpl.
    + destruct (sorted _) as [l|]; simpl; [|by rewrite Hout].
      rewrite <- Hout. apply process_tracks_out.
    + rewrite Hout. simpl. by apply prefix_app_r.
  - simpl. rewrite Hout. simpl. by apply prefix_app_r.
Qed.

Lemma process_items_out (lyrics bpm : bool) (il : list item) (w : world) :
  out w `prefix_of`
    out (process_items version remote lrclib_get bpm_of lyrics bpm il w).1.
Proof.
  revert w. induction il as [|it il IH]; intros w; simpl; [done|].
  pose proof (process_item_out lyrics bpm it w) as Hitem.
  destruct (process_item _ _ _ _ _ _ _ _) as [w1 [|e]]; simpl in *.
  - etrans; [|apply IH]. etrans; [|exact Hitem]. by apply prefix_app_r.
  - etrans; [|exact Hitem]. by apply prefix_app_r.
Qed.

(** C5. A group is skipped, and the run goes on with the groups after it,
    in each of three cases: the group is not cached and the request to the
    remote service fails (one request, warning [FailedToFetch]); the group
    is not cached and the service answers without a record (one request,
    warning [NotFound]); the cached response for the group has no record
    (no request, warning [NotFound]).  Skipped means: processing the group
    ends normally, leaves files, write protection and cache as they were
    and adds the group's header and the warning to the console; the run
    over the group and the remaining ones is the run over the remaining
    ones from that world; and the console of the whole run starts with
    what was there, the header and the warning. *)
Theorem failed_group_is_skipped (lyrics bpm : bool) (it : item)
    (rest : list item) (w : world) :
  let request := (it_artist it, it_album it, length (it_tracks it)) in
  let answer :=
    remote (length (requests w)) (it_artist it) (it_album it)
      (length (it_tracks it)) in
  (Cache.find_response (it_artist it) (it_album it) (cache w) = None →
   answer = Failure →
   group_skipped version remote lrclib_get bpm_of lyrics bpm it rest w
     [request] FailedToFetch)
  ∧ (∀ resp,
       Cache.find_response (it_artist it) (it_album it) (cache w) = None →
       answer = Reply resp → data resp = None →
       group_skipped version remote lrclib_get bpm_of lyrics bpm it rest w
         [request] NotFound)
  ∧ (∀ resp,
       Cache.find_response (it_artist it) (it_album it) (cache w)
       = Some resp →
       data resp = None →
       group_skipped version remote lrclib_get bpm_of lyrics bpm it rest w
         [] NotFound).
Proof.
  assert (∀ sent warning,
            process_item version remote lrclib_get bpm_of lyrics bpm it w
            = ({| is_dir := is_dir w; files := files w;
                  read_only := read_only w; cache := cache w;
                  requests := requests w ++ sent;
                  out := out w
                         ++ [Header (it_album it) (it_artist it)
                               (length (it_tracks it)); warning] |}, Done) →
            group_skipped version remote lrclib_get bpm_of lyrics bpm it
              rest w sent warning) as Hskip.
  { intros sent warning Hitem. unfold group_skipped.
    split; [exact Hitem|].
    assert (process_items version remote lrclib_get bpm_of lyrics bpm
              (it :: rest) w
            = process_items version remote lrclib_get bpm_of lyrics bpm rest
                {| is_dir := is_dir w; files := files w;
                   read_only := read_only w; cache := cache w;
                   requests := requests w ++ sent;
                   out := out w
                          ++ [Header (it_album it) (it_artist it)
                                (length (it_tracks it)); warning] |})
      as Hrun.
    { cbn [process_items]. by rewrite Hitem. }
    split; [exact Hrun|].
    rewrite Hrun.
    exact (process_items_out lyrics bpm rest _). }
  simpl. split; [|split].
  - intros Hmiss Hfail. apply Hskip.
    unfold process_item, resolve. simpl.
    rewrite Hmiss, Hfail. unfold say, with_request. simpl.
    by rewrite <- app_assoc.
  - intros resp Hmiss Hreply Hnone. apply Hskip.
    unfold process_item, resolve. simpl.
    rewrite Hmiss, Hreply, Hnone. simpl. rewrite Hnone.
    unfold say, with_request. simpl. by rewrite <- app_assoc.
  - intros resp Hhit Hnone. apply Hskip.
    unfold process_item, resolve. simpl.
    rewrite Hhit, Hnone. unfold say. simpl.
    by rewrite <- app_assoc, app_nil_r.
Qed.


End Resolution.

(** Two resolutions of a key the service does not know: two requests,
    and the cache stays empty. *)
Lemma negative_lookup_never_cached_witness :
  cache (resolve_times Sample.remote_none 2 "X" "Y" 3 (Sample.world_of []))
  = ∅
  ∧ requests (resolve_times Sample.remote_none 2 "X" "Y" 3
                (Sample.world_of []))
    = [] ++ replicate 2 ("X", "Y", 3).
Proof.
  apply (proj2 (negative_lookup_never_cached Sample.remote_none "X" "Y" 3)
           2 (Sample.world_of [])).
  - reflexivity.
  - intros k resp Hreply. injection Hreply as <-. reflexivity.
Defined.

(** The group of album "Q" by "Z" is skipped before the group of
    [Sample.a1]: with the service down for it, with a service that does
    not know it, and with the negative answer in the cache. *)
Lemma failed_group_is_skipped_witness :
  group_skipped Sample.version Sample.remote_flaky Sample.lrclib_plain
    Sample.bpm_120 false false Sample.group_q [Sample.group_y]
    (Sample.world_of [Sample.a1]) [("Z", "Q", 1)] FailedToFetch
  ∧ group_skipped Sample.version Sample.remote_y Sample.lrclib_plain
      Sample.bpm_120 false false Sample.group_q [Sample.group_y]
      (Sample.world_of [Sample.a1]) [("Z", "Q", 1)] NotFound
  ∧ group_skipped Sample.version Sample.remote_flaky Sample.lrclib_plain
      Sample.bpm_120 false false Sample.group_q [Sample.group_y]
      (Sample.world_cached [Sample.a1]) [] NotFound.
Proof.
  split; [|split].
  - exact (proj1 (failed_group_is_skipped Sample.version Sample.remote_flaky
                    Sample.lrclib_plain Sample.bpm_120 false false
                    Sample.group_q [Sample.group_y]
                    (Sample.world_of [Sample.a1]))
             eq_refl eq_refl).
  - exact (proj1 (proj2 (failed_group_is_skipped Sample.version
                           Sample.remote_y Sample.lrclib_plain
                           Sample.bpm_120 false false Sample.group_q
                           [Sample.group_y] (Sample.world_of [Sample.a1])))
             Sample.missing eq_refl eq_refl eq_refl).
  - exact (proj2 (proj2 (failed_group_is_skipped Sample.version
                           Sample.remote_flaky Sample.lrclib_plain
                           Sample.bpm_120 false false Sample.group_q
                           [Sample.group_y]
                           (Sample.world_cached [Sample.a1])))
             Sample.missing eq_refl eq_refl).
Defined.

(** The run over these two groups with the service down for the first:
    the first group leaves its header and the warning, the second one is
    updated. *)
Example skipped_then_updated :
  let run :=
    process_items Sample.version Sample.remote_flaky Sample.lrclib_plain
      Sample.bpm_120 false false [Sample.group_q; Sample.group_y]
      (Sample.world_of [Sample.a1]) in
  run.2 = Done
  ∧ out run.1
    = [Header "Q" "Z" 1; FailedToFetch; Header "Y" "X" 1;
       UpdatedMetadata "01.flac"]
  ∧ requests run.1 = [("Z", "Q", 1); ("X", "Y", 1)]
  ∧ (λ e, (λ md, tags md !! "PIZZA") <$> e_flac e) <$> files run.1
    = [Some (Some (Sample.version, []))].
Proof. split_and!; by vm_compute. Qed.



(** ** Whole runs *)

(** Positions such as "A1" or "1/12" are rejected by [int]; a whole run
    over a tree with such a file ends with the exception. *)
Example rejected_positions :
  Py.int "A1" = None ∧ Py.int "1/12" = None ∧ Py.int "" = None
  ∧ Py.int "07" = Some 7%Z
  ∧ (update Sample.version Sample.remote_y Sample.lrclib_plain Sample.bpm_120
       false false false (Sample.world_of [Sample.a1; Sample.vinyl])).2
    = Raised ValueError.
Proof. split_and!; by vm_compute. Qed.

(** [int] on ASCII text: blanks around the number, a sign and single
    underscores between digits are read; the separators of ASCII 28 to 31
    are not blanks for it. *)
Example int_on_ascii :
  Py.int " 7 " = Some 7%Z ∧ Py.int "1_0" = Some 10%Z
  ∧ Py.int "+7" = Some 7%Z ∧ Py.int "-12" = Some (-12)%Z
  ∧ Py.int "0_7" = Some 7%Z
  ∧ Py.int "_7" = None ∧ Py.int "7_" = None ∧ Py.int "7__0" = None
  ∧ Py.int "- 7" = None ∧ Py.int "0x10" = None ∧ Py.int "1.0" = None
  ∧ Py.int (String (ascii_of_nat 28) "9") = None
  ∧ Py.int (String (ascii_of_nat 9) (String "7" (String (ascii_of_nat 11) "")))
    = Some 7%Z
  ∧ decimal_integer_string " 7 " = false
  ∧ decimal_integer_string "1_0" = false
  ∧ decimal_integer_string "-12" = true
  ∧ decimal_integer_string "07" = true
  ∧ decimal_integer_string "A1" = false
  ∧ decimal_integer_string "" = false.
Proof. split_and!; by vm_compute. Qed.

(** Two files tagged ARTIST "X", ALBUM "Y", TRACK "1" and "2", resolved by
    a service that knows the album: both are rewritten with ALBUMARTIST
    "X", ALBUM "Y", their TRACK, and neither LYRICS nor BPM when these
    options are off. *)
Example end_to_end :
  let tree :=
    [ Sample.a1;
      Sample.file_of ["music"; "x"; "02.flac"]
        [("ARTIST", "X"); ("ALBUM", "Y"); ("TRACK", "2")] ] in
  let run :=
    update Sample.version Sample.remote_y Sample.lrclib_plain Sample.bpm_120
      false false false (Sample.world_of tree) in
  run.2 = Done
  ∧ out run.1
    = [Header "Y" "X" 2; UpdatedMetadata "01.flac"; UpdatedMetadata "02.flac"]
  ∧ (λ e, (λ md, (tags md !! "ALBUMARTIST", tags md !! "ALBUM",
                  tags md !! "TRACK", tags md !! "LYRICS", tags md !! "BPM"))
          <$> e_flac e) <$> files run.1
    = [ Some (Some ("X", []), Some ("Y", []), Some ("1", []), None, None);
        Some (Some ("X", []), Some ("Y", []), Some ("2", []), None, None) ].
Proof. split_and!; by vm_compute. Qed.

(** * Further properties *)

(** ** [int] and [str] *)

Lemma int_unfold (s : string) :
  Py.int s
  = match Py.strip (String.list_ascii_of_string s) with
    | [] => None
    | c :: ds =>
        if Ascii.eqb c "-" then Z.opp <$> Py.int_digits 0 false ds
        else if Ascii.eqb c "+" then Py.int_digits 0 false ds
        else Py.int_digits 0 false (c :: ds)
    end.
Proof.
  unfold Py.int. destruct (Py.strip _) as [|c ds]; [done|].
  destruct c as [[] [] [] [] [] [] [] []]; reflexivity.
Qed.

Lemma digit_of_char (d : N) :
  (d < 10)%N → Py.digit_of (pretty_N_char d) = Some (Z.of_N d).
Proof.
  intros Hd.
  assert (d = 0 ∨ d = 1 ∨ d = 2 ∨ d = 3 ∨ d = 4 ∨ d = 5 ∨ d = 6 ∨ d = 7
          ∨ d = 8 ∨ d = 9)%N as Hcases by lia.
  repeat destruct Hcases as [->|Hcases]; try subst d; reflexivity.
Qed.

Lemma digit_not_space (c : ascii) (d : Z) :
  Py.digit_of c = Some d →
  Py.is_space c = false ∧ Ascii.eqb c "-" = false ∧ Ascii.eqb c "+" = false.
Proof.
  destruct c as [[] [] [] [] [] [] [] []]; vm_compute; by intros.
Qed.

(** The digits of [x] are put in front of [s], and reading them continues
    the number read so far. *)
Lemma int_digits_pretty_go (x : N) :
  (0 < x)%N →
  ∃ c cs,
    Py.is_space c = false ∧ Ascii.eqb c "-" = false ∧ Ascii.eqb c "+" = false
    ∧ (∀ s, String.list_ascii_of_string (pretty_N_go x s)
            = c :: cs ++ String.list_ascii_of_string s)
    ∧ ∃ k, (0 ≤ k)%Z ∧ ∀ acc b rest,
        Py.int_digits acc b (c :: cs ++ rest)
        = Py.int_digits (acc * 10 ^ k + Z.of_N x)%Z true rest.
Proof.
  induction (N.lt_wf_0 x) as [x _ IH]. intros Hx.
  assert (Py.digit_of (pretty_N_char (x `mod` 10)) = Some (Z.of_N (x `mod` 10)))
    as Hdigit by (apply digit_of_char, N.mod_lt; lia).
  destruct (decide (x < 10)%N) as [Hsmall|Hbig].
  - exists (pretty_N_char (x `mod` 10)), [].
    destruct (digit_not_space _ _ Hdigit) as (? & ? & ?).
    split_and!; try done.
    + intros s. rewrite pretty_N_go_step by done.
      by rewrite N.div_small, pretty_N_go_0 by done.
    + exists 1%Z. split; [done|]. intros acc b rest. simpl. rewrite Hdigit.
      rewrite N.mod_small by done. f_equal. lia.
  - destruct (IH (x `div` 10)%N) as (c & cs & ? & ? & ? & Hlist & k & Hk & Hread).
    { apply N.div_lt; lia. }
    { apply N.div_str_pos; lia. }
    exists c, (cs ++ [pretty_N_char (x `mod` 10)]).
    split_and!; try done.
    + intros s. rewrite pretty_N_go_step by done.
      rewrite Hlist. simpl. by rewrite <- app_assoc.
    + exists (k + 1)%Z. split; [lia|]. intros acc b rest.
      rewrite <- app_assoc. rewrite Hread. simpl. rewrite Hdigit.
      f_equal.
      rewrite Z.pow_add_r by lia.
      pose proof (N.div_mod x 10) as Hdm.
      lia.
Qed.

Lemma strip_no_space (l : list ascii) :
  Forall (λ c, Py.is_space c = false) l → Py.strip l = l.
Proof.
  assert (∀ l', Forall (λ c, Py.is_space c = false) l' → Py.lstrip l' = l')
    as Hl.
  { intros [|c l'] Hall; [done|]. simpl.
    by rewrite (Forall_inv Hall). }
  intros Hall. unfold Py.strip. rewrite (Hl l Hall).
  rewrite Hl by by apply Forall_reverse. apply reverse_involutive.
Qed.

Lemma pretty_go_no_space (x : N) (s : string) :
  Forall (λ c, Py.is_space c = false) (String.list_ascii_of_string s) →
  Forall (λ c, Py.is_space c = false)
    (String.list_ascii_of_string (pretty_N_go x s)).
Proof.
  revert s. induction (N.lt_wf_0 x) as [x _ IH]. intros s Hs.
  destruct (decide (0 < x)%N) as [Hx|Hx].
  - rewrite pretty_N_go_step by done. apply IH; [by apply N.div_lt|].
    simpl. constructor; [|done].
    eapply digit_not_space, digit_of_char, N.mod_lt. lia.
  - assert (x = 0%N) as -> by lia. by rewrite pretty_N_go_0.
Qed.

Lemma int_pretty_pos (p : positive) :
  ∃ c cs,
    String.list_ascii_of_string (pretty (N.pos p)) = c :: cs
    ∧ Forall (λ c, Py.is_space c = false) (c :: cs)
    ∧ Ascii.eqb c "-" = false ∧ Ascii.eqb c "+" = false
    ∧ Py.int_digits 0 false (c :: cs) = Some (Z.pos p).
Proof.
  destruct (int_digits_pretty_go (N.pos p)) as
    (c & cs & Hspace & Hminus & Hplus & Hlist & k & Hk & Hread); [lia|].
  exists c, cs. unfold pretty, pretty_N.
  rewrite decide_False by done.
  pose proof (pretty_go_no_space (N.pos p) "" (Forall_nil_2 _)) as Hall.
  rewrite Hlist in *. simpl in *. rewrite app_nil_r in *.
  split_and!; try done.
  specialize (Hread 0%Z false []). rewrite app_nil_r in Hread.
  rewrite Hread. simpl. done.
Qed.

(** [int(str(n))] is [n], for every integer. *)
Lemma int_str (n : Z) : Py.int (Py.str n) = Some n.
Proof.
  unfold Py.str. rewrite int_unfold.
  destruct n as [|p|p].
  - reflexivity.
  - destruct (int_pretty_pos p) as (c & cs & Hlist & Hall & Hminus & Hplus & Hval).
    change (pretty (Z.pos p)) with (pretty (N.pos p)).
    rewrite Hlist, strip_no_space by done.
    by rewrite Hminus, Hplus.
  - destruct (int_pretty_pos p) as (c & cs & Hlist & Hall & Hminus & Hplus & Hval).
    change (String.list_ascii_of_string (pretty (Z.neg p)))
      with ("-"%char :: String.list_ascii_of_string (pretty (N.pos p))).
    rewrite Hlist, strip_no_space by (by constructor).
    change (Ascii.eqb "-" "-") with true. cbv iota. by rewrite Hval.
Qed.

Lemma list_ascii_of_string_app (a b : string) :
  String.list_ascii_of_string (a +:+ b)
  = String.list_ascii_of_string a ++ String.list_ascii_of_string b.
Proof. induction a as [|c a IH]; simpl; [done|]. by rewrite IH. Qed.

Lemma rfind_dot_none (i : nat) (l : list ascii) :
  Forall (λ c, Ascii.eqb c "." = false) l → Py.rfind_dot i l = None.
Proof.
  revert i. induction l as [|c l IH]; intros i Hall; [done|].
  apply Forall_cons_1 in Hall as [Hc Hall]. simpl.
  by rewrite IH, Hc.
Qed.

Lemma rfind_dot_last (i : nat) (a b : list ascii) :
  Forall (λ c, Ascii.eqb c "." = false) b →
  Py.rfind_dot i (a ++ "."%char :: b) = Some (i + length a).
Proof.
  intros Hb. revert i. induction a as [|c a IH]; intros i; simpl.
  - rewrite rfind_dot_none by done. f_equal. lia.
  - rewrite IH. f_equal. lia.
Qed.

(** X2. The suffix of a name is [.flac] exactly when the name is a non-empty
    stem followed by [.flac]. *)
Theorem suffix_flac_iff (file_name : string) :
  Py.suffix file_name = ".flac"
  ↔ ∃ stem, stem ≠ "" ∧ file_name = stem +:+ ".flac".
Proof.
  split.
  - intros Hsuffix.
    destruct (suffix_ends_with ".flac" file_name) as [stem ->]; [done|done|].
    exists stem. split; [|done]. intros ->. by vm_compute in Hsuffix.
  - intros (stem & Hstem & ->). unfold Py.suffix.
    rewrite list_ascii_of_string_app.
    change (String.list_ascii_of_string ".flac")
      with ("."%char :: String.list_ascii_of_string "flac").
    rewrite rfind_dot_last by (by repeat constructor).
    rewrite Nat.add_0_l, bool_decide_eq_true_2.
    + by rewrite drop_app_length.
    + rewrite length_app. simpl.
      destruct stem; [done|]. simpl. lia.
Qed.

(** ** The year of a date *)

(** X3. The head of a split does not contain the separator, and the
    string is that head alone or the head, a separator and a rest: YEAR is
    the part of the date before its first dash, the whole date when it has
    none. *)
Theorem split_head_spec (sep : ascii) (s : string) :
  (∀ a b, Py.split_head sep s ≠ a +:+ String sep b)
  ∧ (s = Py.split_head sep s
     ∨ ∃ rest, s = Py.split_head sep s +:+ String sep rest).
Proof.
  induction s as [|c s [IH1 IH2]]; simpl.
  - split; [|by left]. by intros [|] ?.
  - destruct (Ascii.eqb_spec c sep) as [->|Hne].
    + split; [by intros [|] ?|]. right. by exists s.
    + split.
      * intros [|a' a] b; simpl.
        -- by intros [= ? _].
        -- intros [= -> Heq]. by eapply IH1.
      * destruct IH2 as [Heq|[rest Heq]].
        -- left. by f_equal.
        -- right. exists rest. by rewrite Heq at 1.
Qed.

(** ** Position strings *)

(** X1. A candidate whose raw position is the string of a record's
    position is ordered by that position, and every record it satisfies by
    position has that same position. *)
Theorem position_match_sort_key (title position : option string)
    (file : list string) (x : TrackRecord) :
  Some (Py.str (t_position x)) = position →
  sort_key (title, position, file) = Some (t_position x)
  ∧ ∀ y, Some (Py.str (t_position y)) = position →
         t_position y = t_position x.
Proof.
  intros <-. split.
  - unfold sort_key. simpl. apply int_str.
  - intros y [= Heq]. unfold Py.str in Heq. by apply (inj pretty) in Heq.
Qed.

(** ** More on [grab_musicbrainz] *)

Lemma drop_cons_inv {A} (i : nat) (l : list A) (x : A) (rest : list A) :
  drop i l = x :: rest → l !! i = Some x ∧ drop (S i) l = rest.
Proof.
  revert i. induction l as [|y l IH]; intros i Hdrop.
  - by rewrite drop_nil in Hdrop.
  - destruct i as [|i]; simpl in *.
    + injection Hdrop as -> ->. by rewrite drop_0.
    + by apply IH.
Qed.

Lemma track_entry_is_Some (data : App.release) (index : nat) (t : App.track) :
  index < length (App.medium_list data) →
  is_Some (App.track_entry data index t)
  ↔ is_Some (Py.int (App.trk_position t)).
Proof.
  intros Hindex. unfold App.track_entry.
  case_bool_decide as Hpos.
  - destruct (lookup_lt_is_Some_2 (App.medium_list data) (index - 1))
      as [prev Hprev]; [lia|].
    rewrite Hprev.
    destruct (Py.int (App.trk_position t)); simpl; split; intros [? ?];
      by eauto.
  - destruct (Py.int (App.trk_position t)); simpl; split; intros [? ?];
      by eauto.
Qed.

Lemma fill_tracks_is_Some (data : App.release) (media : list App.medium) :
  ∀ index,
    media = drop index (App.medium_list data) →
    is_Some (App.fill_tracks data index media)
    ↔ Forall (λ m, Forall (λ t, is_Some (Py.int (App.trk_position t)))
                     (App.track_list m)) media.
Proof.
  induction media as [|m rest IH]; intros index Hmedia; simpl.
  - split; [by constructor|by eexists].
  - symmetry in Hmedia. apply drop_cons_inv in Hmedia as [Hm Hrest].
    apply lookup_lt_Some in Hm.
    rewrite Forall_cons, <- (IH (S index)) by done.
    assert (is_Some (mapM (App.track_entry data index) (App.track_list m))
            ↔ Forall (λ t, is_Some (Py.int (App.trk_position t)))
                (App.track_list m)) as <-.
    { rewrite mapM_is_Some. apply Forall_proper; [|done].
      intros t. by apply track_entry_is_Some. }
    destruct (mapM _ _); simpl.
    + destruct (App.fill_tracks data (S index) rest); simpl.
      * split; [by eauto|by eexists].
      * split; [by intros [? ?]|by intros [_ [? ?]]].
    + split; [by intros [? ?]|by intros [[? ?] _]].
Qed.

(** X4. For a release whose listed track positions are all plain, the
    record cannot be built exactly when the release's first artist credit
    is not an artist entry or some listed track has a position that [int]
    rejects. *)
Theorem grab_musicbrainz_None (data : App.release) :
  plain_positions data = true →
  App.grab_musicbrainz data = None
  ↔ (∀ i n rest, App.rel_artist_credit data ≠ App.Credit i n :: rest)
    ∨ ∃ med t, med ∈ App.medium_list data ∧ t ∈ App.track_list med
               ∧ Py.int (App.trk_position t) = None.
Proof.
  intros _.
  pose proof (fill_tracks_is_Some data (App.medium_list data) 0 eq_refl)
    as Hfill.
  assert ((∃ med t, med ∈ App.medium_list data ∧ t ∈ App.track_list med
                    ∧ Py.int (App.trk_position t) = None)
          ↔ App.fill_tracks data 0 (App.medium_list data) = None) as ->.
  { rewrite eq_None_not_Some, Hfill. split.
    - intros (med & t & Hmed & Ht & Hint) Hall.
      rewrite Forall_forall in Hall. specialize (Hall med Hmed).
      rewrite Forall_forall in Hall. specialize (Hall t Ht).
      rewrite Hint in Hall. by destruct Hall.
    - intros Hnot. apply not_Forall_Exists in Hnot; [|apply _].
      apply Exists_exists in Hnot as (med & Hmed & Hnot).
      apply not_Forall_Exists in Hnot; [|apply _].
      apply Exists_exists in Hnot as (t & Ht & Hnot).
      exists med, t. split_and!; [done|done|].
      by apply eq_None_not_Some. }
  unfold App.grab_musicbrainz.
  destruct (App.rel_artist_credit data) as [|[i n|phrase] rest]; simpl.
  - split; [by left|done].
  - destruct (App.fill_tracks data 0 (App.medium_list data)); simpl.
    + split; [done|]. intros [Hno|?]; [|done]. by destruct (Hno i n rest).
    + split; [by right|done].
  - split; [by left|done].
Qed.

Lemma fill_tracks_shape (data : App.release) (media : list App.medium) :
  ∀ index built,
    App.fill_tracks data index media = Some built →
    t_title <$> built
    = (App.rec_title ∘ App.trk_recording) <$> (media ≫= App.track_list)
    ∧ t_artist <$> built
      = (App.credit_names ∘ App.rec_artist_credit ∘ App.trk_recording)
          <$> (media ≫= App.track_list)
    ∧ t_disc <$> built
      = mjoin (imap (λ i m, replicate (length (App.track_list m))
                              (Z.of_nat (index + i) + 1)%Z) media).
Proof.
  induction media as [|m rest IH]; intros index built Hfill; simpl in Hfill.
  - by injection Hfill as <-.
  - destruct (mapM _ _) as [entries|] eqn:Hentries; simpl in Hfill; [|done].
    destruct (App.fill_tracks data (S index) rest) as [more|] eqn:Hmore;
      simpl in Hfill; [|done].
    injection Hfill as <-.
    destruct (IH _ _ Hmore) as (Htitles & Hartists & Hdiscs).
    apply mapM_Some in Hentries.
    assert (t_title <$> entries
            = (App.rec_title ∘ App.trk_recording) <$> App.track_list m
            ∧ t_artist <$> entries
              = (App.credit_names ∘ App.rec_artist_credit ∘ App.trk_recording)
                  <$> App.track_list m
            ∧ t_disc <$> entries
              = replicate (length (App.track_list m)) (Z.of_nat index + 1)%Z)
      as (Ht & Ha & Hd).
    { induction Hentries as [|t tr ts trs Hentry _ (IH1 & IH2 & IH3)];
        [done|].
      unfold App.track_entry in Hentry.
      destruct (if bool_decide (0 < index) then _ else _) as [position|];
        simpl in Hentry; [|done].
      injection Hentry as <-.
      by rewrite !fmap_cons, IH1, IH2, IH3. }
    rewrite bind_cons, !fmap_app, Ht, Ha, Hd, Htitles, Hartists, Hdiscs.
    split_and!; [done|done|].
    rewrite imap_cons. simpl. rewrite Nat.add_0_r. do 2 f_equal.
    apply imap_ext. intros i m' _. simpl. do 2 f_equal. lia.
Qed.

(** X5. A built record lists the tracks of all media in order: titles and
    artists are those of the recordings, the disc of a track is the
    1-based index of its medium, and no track is dropped or added. *)
Theorem grab_musicbrainz_tracks (data : App.release) (r : AlbumRecord) :
  App.grab_musicbrainz data = Some r →
  length (r_tracks r)
  = length (App.medium_list data ≫= App.track_list)
  ∧ t_title <$> r_tracks r
    = (App.rec_title ∘ App.trk_recording)
        <$> (App.medium_list data ≫= App.track_list)
  ∧ t_artist <$> r_tracks r
    = (App.credit_names ∘ App.rec_artist_credit ∘ App.trk_recording)
        <$> (App.medium_list data ≫= App.track_list)
  ∧ t_disc <$> r_tracks r
    = mjoin (imap (λ i m, replicate (length (App.track_list m))
                            (Z.of_nat i + 1)%Z) (App.medium_list data)).
Proof.
  unfold App.grab_musicbrainz. intros Hgrab.
  destruct (App.rel_artist_credit data) as [|[i n|phrase] rest];
    simpl in Hgrab; try done.
  destruct (App.fill_tracks data 0 (App.medium_list data)) as [built|] eqn:Hfill;
    simpl in Hgrab; [|done].
  injection Hgrab as <-. simpl.
  destruct (fill_tracks_shape _ _ _ _ Hfill) as (Ht & Ha & Hd).
  split_and!; try done.
  by rewrite <- (length_fmap t_title), Ht, length_fmap.
Qed.

(** X6. A built record has at least one artist name, the one credited first,
    whose id is the record's artist id; so asking for lyrics with such a
    record never fails for want of an artist. *)
Theorem grab_musicbrainz_artist (data : App.release) (r : AlbumRecord) :
  App.grab_musicbrainz data = Some r →
  (∃ i n rest,
     App.rel_artist_credit data = App.Credit i n :: rest
     ∧ ids_artist (r_ids r) = i
     ∧ r_artist r = n :: App.credit_names rest)
  ∧ ∀ version lrclib_get bpm_of lyrics bpm m file metadata,
      assemble version lrclib_get bpm_of lyrics bpm r m file metadata
      ≠ Raise IndexError.
Proof.
  unfold App.grab_musicbrainz. intros Hgrab.
  destruct (App.rel_artist_credit data) as [|[i n|phrase] rest] eqn:Hcredit;
    simpl in Hgrab; try done.
  destruct (App.fill_tracks data 0 (App.medium_list data)) as [built|];
    simpl in Hgrab; [|done].
  injection Hgrab as <-. simpl. split; [by exists i, n, rest|].
  intros version lrclib_get bpm_of lyrics bpm m file metadata.
  unfold assemble, write_lyrics, write_bpm. simpl.
  destruct lyrics; simpl.
  - destruct (lrclib_get _ _ _ _) as [| |synced plain]; simpl; [done| |].
    + destruct bpm; [|done]. by destruct (bpm_of file).
    + destruct (final_lyrics synced plain); simpl;
        (destruct bpm; [|done]); by destruct (bpm_of file).
  - destruct bpm; [|done]. by destruct (bpm_of file).
Qed.

(** ** The search of the service *)

(** X8. Nothing found means an empty search result; a record that is
    returned was built from the release of the first hit alone. *)
Theorem search_musicbrainz_result
    (search_releases : string → string → nat → option (list string))
    (get_release_by_id : string → option App.release)
    (artist album : string) (trackc : nat) :
  (search_musicbrainz search_releases get_release_by_id artist album trackc
   = Some None
   ↔ search_releases album artist trackc = Some [])
  ∧ ∀ r, search_musicbrainz search_releases get_release_by_id artist album
           trackc = Some (Some r) →
         ∃ first others data,
           search_releases album artist trackc = Some (first :: others)
           ∧ get_release_by_id first = Some data
           ∧ App.grab_musicbrainz data = Some r
           ∧ r_album r = App.rel_title data
           ∧ ids_album (r_ids r) = App.rel_id data.
Proof.
  unfold search_musicbrainz.
  destruct (search_releases album artist trackc) as [[|first others]|];
    simpl.
  - split; [done|]. by intros r.
  - destruct (get_release_by_id first) as [data|] eqn:Hget; simpl.
    + destruct (App.grab_musicbrainz data) as [r|] eqn:Hgrab; simpl.
      * split; [by split|]. intros r' [= <-].
        exists first, others, data. split_and!; try done.
        -- unfold App.grab_musicbrainz in Hgrab.
           destruct (App.rel_artist_credit data) as [|[]]; simpl in Hgrab;
             try done.
           destruct (App.fill_tracks _ _ _); simpl in Hgrab; [|done].
           by injection Hgrab as <-.
        -- unfold App.grab_musicbrainz in Hgrab.
           destruct (App.rel_artist_credit data) as [|[]]; simpl in Hgrab;
             try done.
           destruct (App.fill_tracks _ _ _); simpl in Hgrab; [|done].
           by injection Hgrab as <-.
      * split; [by split|]. by intros r.
    + split; [by split|]. by intros r.
  - split; [by split|]. by intros r.
Qed.

(** ** What the scan files, and where *)

Lemma scan_file_entry (force : bool) (st : list item * list message)
    (e : entry) :
  (scan_file force st e).1
  = match scan_entry force e with
    | Some (album, artist, c) => add_track album artist c st.1
    | None => st.1
    end.
Proof.
  unfold scan_file, scan_entry, skipped_by_marker, is_flac, candidate_of.
  destruct (e_is_file e && _); simpl; [|done].
  destruct (e_flac e) as [metadata|]; simpl; [|done].
  destruct (bool_decide _ && negb force); simpl; [done|].
  destruct (local_artist metadata) as [artist|]; simpl; [|done].
  by destruct (tags metadata !! "ALBUM") as [album|].
Qed.

Lemma total_tracks_add (album artist : string) (c : candidate)
    (il : list item) :
  total_tracks (add_track album artist c il) = S (total_tracks il).
Proof.
  unfold total_tracks. induction il as [|it il IH]; simpl in *; [done|].
  destruct (String.eqb _ _); simpl in *; rewrite ?length_app; simpl;
    unfold fmap in IH; lia.
Qed.

Lemma scan_file_counts (force : bool) (st : list item * list message)
    (e : entry) :
  length (scan_file force st e).2 + total_tracks (scan_file force st e).1
  + (if skipped_by_marker force e then 1 else 0)
  = length st.2 + total_tracks st.1 + (if is_flac e then 1 else 0).
Proof.
  unfold scan_file, skipped_by_marker, is_flac.
  destruct (e_is_file e && _); simpl; [|lia].
  destruct (e_flac e) as [metadata|]; simpl;
    [|rewrite length_app; simpl; lia].
  destruct (bool_decide _ && negb force); simpl; [lia|].
  destruct (local_artist metadata) as [artist|]; simpl;
    [|rewrite length_app; simpl; lia].
  destruct (tags metadata !! "ALBUM") as [album|]; simpl;
    [|rewrite length_app; simpl; lia].
  rewrite total_tracks_add. lia.
Qed.

(** X9. Every regular [.flac] file of the tree is accounted for exactly once:
    by a warning, by a place in a group, or as passed over for its marker. *)
Theorem scan_accounts_for_every_flac (force : bool) (fs : list entry) :
  length (List.filter is_flac fs)
  = length (scan force fs).2 + total_tracks (scan force fs).1
    + length (List.filter (skipped_by_marker force) fs).
Proof.
  induction fs as [|e fs IH] using rev_ind; [done|].
  rewrite scan_snoc, !List.filter_app, !length_app. simpl.
  pose proof (scan_file_counts force (scan force fs) e) as Hstep.
  destruct (skipped_by_marker force e), (is_flac e); simpl in *; lia.
Qed.

Lemma group_tracks_snoc (force : bool) (album : string) (fs : list entry)
    (e : entry) :
  group_tracks force album (fs ++ [e])
  = group_tracks force album fs
    ++ (match scan_entry force e with
        | Some (al, _, c) => if String.eqb al album then [c] else []
        | None => []
        end).
Proof.
  unfold group_tracks. rewrite omap_app. f_equal. simpl.
  destruct (scan_entry force e) as [[[al ar] c]|]; [|done].
  by destruct (String.eqb al album).
Qed.

Lemma add_track_elem_strict (album artist : string) (c : candidate)
    (il : list item) (it' : item) :
  NoDup (it_album <$> il) →
  it' ∈ add_track album artist c il →
  (it' ∈ il ∧ it_album it' ≠ album)
  ∨ ((album ∉ it_album <$> il)
     ∧ it' = {| it_album := album; it_artist := artist; it_tracks := [c] |})
  ∨ ∃ it, it ∈ il ∧ it_album it = album
          ∧ it' = {| it_album := it_album it; it_artist := it_artist it;
                     it_tracks := it_tracks it ++ [c] |}.
Proof.
  induction il as [|it il IH]; intros Hnodup; simpl.
  - intros ->%list_elem_of_singleton. right; left. split; [|done].
    apply not_elem_of_nil.
  - rewrite fmap_cons in Hnodup. apply NoDup_cons in Hnodup as [Hfresh Hnodup].
    destruct (String.eqb_spec (it_album it) album) as [Heq|Hne].
    + intros [->|Hin]%elem_of_cons.
      * right; right. exists it. split_and!; [by left|done|done].
      * left. split; [by right|]. intros Halbum. apply Hfresh.
        rewrite Heq, <- Halbum. by apply list_elem_of_fmap_2.
    + intros [->|Hin]%elem_of_cons; [left; split; [by left|done]|].
      destruct (IH Hnodup Hin) as [[? ?]|[[? ?]|(it0 & ? & ? & ?)]].
      * left. split; [by right|done].
      * right; left. split; [|done].
        intros [?|?]%elem_of_cons; [congruence|done].
      * right; right. exists it0. split_and!; [by right|done|done].
Qed.

(** X10. A group holds exactly the accepted files of the tree whose ALBUM tag
    is the group's album, in the order of the tree; it is never empty, and
    an album without a group has no accepted file. *)
Theorem scan_group_contents (force : bool) (fs : list entry) :
  (∀ it, it ∈ (scan force fs).1 →
         it_tracks it = group_tracks force (it_album it) fs
         ∧ it_tracks it ≠ [])
  ∧ (∀ album, album ∉ it_album <$> (scan force fs).1 →
              group_tracks force album fs = []).
Proof.
  induction fs as [|e fs [IHin IHout]] using rev_ind.
  - split; [by intros it ?%elem_of_nil|done].
  - rewrite scan_snoc.
    pose proof (proj1 (scan_invariant force fs)) as Hnodup.
    pose proof (scan_file_entry force (scan force fs) e) as Hstep.
    destruct (scan_entry force e) as [[[album artist] c]|] eqn:Hentry.
    + rewrite Hstep. split.
      * intros it' Hit'. rewrite group_tracks_snoc, Hentry.
        apply add_track_elem_strict in Hit'
          as [[Hold Hne]|[[Hfresh ->]|(it & Hit & Halbum & ->)]]; [| | |done].
        -- destruct (IHin it' Hold) as [-> Hnonempty].
           destruct (String.eqb_spec album (it_album it')); [congruence|].
           by rewrite app_nil_r.
        -- simpl. rewrite (IHout album Hfresh), String.eqb_refl. by split.
        -- simpl. destruct (IHin it Hit) as [-> _].
           rewrite Halbum, String.eqb_refl. split; [done|].
           by intros [_ ?]%app_eq_nil.
      * intros album' Hfresh. rewrite add_track_albums in Hfresh.
        rewrite group_tracks_snoc, Hentry.
        destruct (String.eqb_spec album album') as [->|Hne].
        -- exfalso. case_bool_decide as Hin; [done|].
           apply Hfresh, elem_of_app. right. by left.
        -- rewrite app_nil_r. apply IHout.
           case_bool_decide; [done|]. intros Hin. apply Hfresh, elem_of_app.
           by left.
    + rewrite Hstep. split.
      * intros it Hit. rewrite group_tracks_snoc, Hentry, app_nil_r.
        by apply IHin.
      * intros album Hfresh. rewrite group_tracks_snoc, Hentry, app_nil_r.
        by apply IHout.
Qed.

(** ** Order of the candidates, once more *)

Lemma insert_sorted_list (keyed : list (Z * candidate)) :
  Sorted Z.le (fst <$> keyed) →
  foldr (λ kc acc, insert_by_key kc.1 kc.2 acc) [] keyed = keyed.
Proof.
  induction keyed as [|[k c] keyed IH]; [done|].
  rewrite fmap_cons. intros [Hrest Hhead]%Sorted_inv.
  cbn [foldr]. rewrite (IH Hrest).
  destruct keyed as [|[k' c'] keyed]; [done|].
  apply HdRel_inv in Hhead. simpl in *.
  by rewrite (proj2 (Z.leb_le k k')).
Qed.

Lemma sorted_of_sorted (l : list candidate) (keys : list Z) :
  Forall2 (λ c k, sort_key c = Some k) l keys → Sorted Z.le keys →
  sorted l = Some l.
Proof.
  intros Hkeys Hsorted. unfold sorted.
  assert (mapM (λ c, k ← sort_key c; Some (k, c)) l = Some (zip keys l))
    as ->.
  { apply mapM_Some. clear Hsorted.
    induction Hkeys as [|c k l keys Hk _ IH]; simpl; constructor; [|done].
    by rewrite Hk. }
  simpl. rewrite insert_sorted_list.
  - rewrite snd_zip; [done|]. by rewrite (Forall2_length _ _ _ Hkeys).
  - rewrite fst_zip; [done|]. by rewrite (Forall2_length _ _ _ Hkeys).
Qed.

(** X11. Candidates that already are in ascending order of their key keep
    their order, so ordering twice is ordering once; in particular files
    without any TRACK tag are processed in the order of the scan. *)
Theorem sorted_keeps_order :
  (∀ l keys, Forall2 (λ c k, sort_key c = Some k) l keys →
             Sorted Z.le keys → sorted l = Some l)
  ∧ (∀ l l', sorted l = Some l' → sorted l' = Some l')
  ∧ (∀ l, Forall (λ c : candidate, c.1.2 = None) l → sorted l = Some l).
Proof.
  split_and!.
  - apply sorted_of_sorted.
  - intros l l' Hsorted.
    destruct (sorted_Some _ _ Hsorted) as (_ & keys & Hkeys & Hord).
    by eapply sorted_of_sorted.
  - intros l Hall. apply (sorted_of_sorted l (replicate (length l) 0%Z)).
    + induction Hall as [|c l Hc _ IH]; simpl; constructor; [|done].
      unfold sort_key. by rewrite Hc.
    + clear. induction l as [|c l IH]; simpl; [constructor|].
      constructor; [done|]. destruct l; simpl; by constructor.
Qed.

(** ** What a run does to the tree *)

Lemma rewritten_trans (version : string) (e1 e2 e3 : entry) :
  rewritten version e1 e2 → rewritten version e2 e3 →
  rewritten version e1 e3.
Proof.
  intros (Hp1 & Hf1 & m1 & m2 & Ha & Hb & Hlen1 & _)
         (Hp2 & Hf2 & m2' & m3 & Hc & Hd & Hlen2 & Hmark).
  split_and!; [congruence|congruence|].
  exists m1, m3. split_and!; try done. congruence.
Qed.

Lemma evolved_refl (version : string) (P : list string → Prop)
    (fs : list entry) : evolved version P fs fs.
Proof. apply Forall2_same_length_lookup_2; [done|]. intros; left; congruence. Qed.

Lemma evolved_trans (version : string) (P : list string → Prop)
    (fs1 fs2 fs3 : list entry) :
  evolved version P fs1 fs2 → evolved version P fs2 fs3 →
  evolved version P fs1 fs3.
Proof.
  intros [Hl1 H12]%Forall2_same_length_lookup
         [Hl2 H23]%Forall2_same_length_lookup.
  apply Forall2_same_length_lookup_2; [congruence|].
  intros i e1 e3 H1 H3.
  destruct (lookup_lt_is_Some_2 fs2 i) as [e2 H2].
  { rewrite <- Hl1. by eapply lookup_lt_Some. }
  specialize (H12 i e1 e2 H1 H2). specialize (H23 i e2 e3 H2 H3).
  destruct H12 as [Heq1|[HP Hre1]]; [subst e2; done|].
  destruct H23 as [Heq2|[HP' Hre2]]; [subst e3; by right|].
  right. split; [done|]. by eapply rewritten_trans.
Qed.

Lemma evolved_mono (version : string) (P Q : list string → Prop)
    (fs fs' : list entry) :
  (∀ p, P p → Q p) → evolved version P fs fs' → evolved version Q fs fs'.
Proof.
  intros HPQ Hev. eapply Forall2_impl; [exact Hev|].
  intros e e' [->|[HP H]]; [by left|].
  right. split; [by apply HPQ|done].
Qed.

Lemma save_evolved (version : string) (file : list string)
    (t : gmap string values) (fs : list entry) :
  t !! "PIZZA" = Some (version, []) →
  evolved version (λ p, p = file) fs (save file t fs).
Proof.
  intros Hmark. unfold evolved, save. apply Forall2_fmap_r.
  apply Forall2_same_length_lookup_2; [done|].
  intros i e e' He He'. assert (e' = e) as -> by congruence.
  unfold compose. case_bool_decide as Hpath; [|by left].
  destruct e as [path kind [metadata|]]; simpl in *; [|by left].
  right. split; [done|]. split_and!; try done. by eexists _, _.
Qed.

Section Tree.

Context (version : string).
Context (remote : nat → string → string → nat → reply).
Context (lrclib_get : string → string → string → Z → lyrics_reply).
Context (bpm_of : list string → option Z).

Lemma update_file_evolved (lyrics bpm : bool) (r : AlbumRecord)
    (m : TrackRecord) (file : list string) (w : world) :
  evolved version (λ p, p = file) (files w)
    (files (update_file version lrclib_get bpm_of lyrics bpm r m file w).1).
Proof.
  destruct (update_file_cases version lrclib_get bpm_of lyrics bpm r m file w)
    as [[_ ->]|[(old & e & _ & _ & ->)
               |[(old & t & _ & _ & _ & ->)
                |(old & t & _ & Hassemble & _ & ->)]]];
    try apply evolved_refl.
  simpl. apply save_evolved.
  destruct (assemble_fields _ _ _ _ _ _ _ _ _ _ Hassemble)
    as (text & beat & Hlookup & _).
  rewrite Hlookup. by case_decide.
Qed.

Lemma process_file_evolved (lyrics bpm : bool) (r : AlbumRecord)
    (c : candidate) (w : world) :
  evolved version (λ p, p = c.2) (files w)
    (files (process_file version lrclib_get bpm_of lyrics bpm r c w).1).
Proof.
  destruct c as [[title position] file]. unfold process_file.
  destruct (negb _); [apply evolved_refl|].
  destruct (find_match _ _ _); [|apply evolved_refl].
  apply update_file_evolved.
Qed.

Lemma process_tracks_evolved (lyrics bpm : bool) (r : AlbumRecord)
    (cs : list candidate) (w : world) :
  evolved version (λ p, ∃ c, c ∈ cs ∧ c.2 = p) (files w)
    (files (process_tracks version lrclib_get bpm_of lyrics bpm r cs w).1).
Proof.
  revert w. induction cs as [|c cs IH]; intros w; simpl;
    [apply evolved_refl|].
  pose proof (process_file_evolved lyrics bpm r c w) as Hc.
  destruct (process_file _ _ _ _ _ r c w) as [w' [|e]]; simpl in *.
  - eapply evolved_trans.
    + eapply evolved_mono; [|exact Hc]. intros p ->. exists c.
      split; [by left|done].
    + eapply evolved_mono; [|apply IH]. intros p (c' & Hin & Hp).
      exists c'. split; [by right|done].
  - eapply evolved_mono; [|exact Hc]. intros p ->. exists c.
    split; [by left|done].
Qed.

Lemma process_item_evolved (lyrics bpm : bool) (it : item) (w : world) :
  evolved version (λ p, ∃ c, c ∈ it_tracks it ∧ c.2 = p) (files w)
    (files (process_item version remote lrclib_get bpm_of lyrics bpm it w).1).
Proof.
  unfold process_item.
  pose proof (resolve_frame remote (it_artist it) (it_album it)
                (length (it_tracks it))
                (say (Header (it_album it) (it_artist it)
                        (length (it_tracks it))) w)) as (Hfiles & _ & _).
  destruct (resolve _ _ _ _ _) as [w1 [resp|]]; simpl in Hfiles.
  - destruct (data resp) as [r|];
      [|simpl; rewrite Hfiles; apply evolved_refl].
    destruct (sorted (it_tracks it)) as [cs|] eqn:Hsorted;
      [|simpl; rewrite Hfiles; apply evolved_refl].
    destruct (sorted_Some _ _ Hsorted) as [Hperm _].
    rewrite <- Hfiles. eapply evolved_mono; [|apply process_tracks_evolved].
    intros p (c & Hin & Hp). exists c. split; [|done]. by rewrite <- Hperm.
  - simpl. rewrite Hfiles. apply evolved_refl.
Qed.

Lemma process_items_evolved (lyrics bpm : bool) (il : list item) (w : world) :
  evolved version (scanned il) (files w)
    (files (process_items version remote lrclib_get bpm_of lyrics bpm il w).1).
Proof.
  revert w. induction il as [|it il IH]; intros w; simpl;
    [apply evolved_refl|].
  pose proof (process_item_evolved lyrics bpm it w) as Hit.
  assert (∀ p, (∃ c, c ∈ it_tracks it ∧ c.2 = p) → scanned (it :: il) p)
    as Hhere.
  { intros p (c & Hin & Hp). exists it, c. split; [by left|done]. }
  destruct (process_item _ _ _ _ _ _ it w) as [w' [|e]]; simpl in *.
  - eapply evolved_trans.
    + eapply evolved_mono; [exact Hhere|exact Hit].
    + eapply evolved_mono; [|apply IH]. intros p (it' & c & Hin & Hc & Hp).
      exists it', c. split; [by right|done].
  - eapply evolved_mono; [exact Hhere|exact Hit].
Qed.

Lemma update_evolved (bpm lyrics force : bool) (w : world) :
  evolved version (scanned (scan force (files w)).1) (files w)
    (files (update version remote lrclib_get bpm_of bpm lyrics force w).1).
Proof.
  unfold update. destruct (negb (is_dir w)); [apply evolved_refl|].
  destruct (scan force (files w)) as [il warnings]. simpl.
  apply (process_items_evolved lyrics bpm il
           {| is_dir := is_dir w; files := files w; read_only := read_only w;
              cache := cache w;
              requests := requests w; out := out w ++ warnings |}).
Qed.

(** X13. Whatever the outcome of a run, each entry of the tree is either as it
    was, or it is one of the files the scan took and now has a tag set
    with the marker of this version; paths, kinds, stream durations and
    the number of entries are as before. *)
Theorem update_tree (bpm lyrics force : bool) (w : world) :
  let w' := (update version remote lrclib_get bpm_of bpm lyrics force w).1 in
  evolved version (scanned (scan force (files w)).1) (files w) (files w')
  ∧ e_path <$> files w' = e_path <$> files w
  ∧ e_is_file <$> files w' = e_is_file <$> files w.
Proof.
  simpl. pose proof (update_evolved bpm lyrics force w) as Hev.
  split; [done|].
  split; symmetry; apply list_eq_Forall2, Forall2_fmap;
    (eapply Forall2_impl; [exact Hev|]);
    intros e e' [->|[_ (? & ? & _)]]; simpl; congruence.
Qed.

(** X14. After a run, a scan without the force option passes over every entry
    that the run changed. *)
Theorem updated_files_are_skipped (bpm lyrics force : bool) (w : world)
    (e' : entry) :
  e' ∈ files (update version remote lrclib_get bpm_of bpm lyrics force w).1 →
  e' ∈ files w ∨ ∀ st, scan_file false st e' = st.
Proof.
  intros Hin. pose proof (update_evolved bpm lyrics force w) as Hev.
  apply list_elem_of_lookup in Hin as [i Hi].
  destruct (Forall2_lookup_r _ _ _ _ _ Hev Hi) as (e & He & [->|[_ Hre]]).
  - left. by eapply list_elem_of_lookup_2.
  - right. destruct Hre as (_ & _ & md & md' & _ & Hflac & _ & Hmark).
    intros st. unfold scan_file. rewrite Hflac.
    destruct (negb _); [done|].
    rewrite bool_decide_eq_true_2; [done|]. by eexists.
Qed.

End Tree.

(** ** The cache and the requests over a run *)

Section Traffic.

Context (version : string).
Context (remote : nat → string → string → nat → reply).
Context (lrclib_get : string → string → string → Z → lyrics_reply).
Context (bpm_of : list string → option Z).

(** X15. Once a key was resolved to a record, resolving it again, for whatever
    track count, sends no request and gives the same response. *)
Theorem resolve_again (artist album : string) (trackc trackc' : nat)
    (w w1 : world) (resp : response) (r : AlbumRecord) :
  resolve remote artist album trackc w = (w1, Some resp) →
  data resp = Some r →
  resolve remote artist album trackc' w1 = (w1, Some resp).
Proof.
  unfold resolve, Cache.find_response, Cache.set_response.
  intros Hresolve Hdata.
  destruct (cache w !! (artist, album)) as [cached|] eqn:Hcached.
  - injection Hresolve as <- <-. by rewrite Hcached.
  - destruct (remote _ _ _ _) as [|resp']; [done|].
    destruct (data resp') eqn:Hdata'.
    + injection Hresolve as <- <-. simpl. by rewrite lookup_insert_eq.
    + injection Hresolve as <- <-. congruence.
Qed.

Lemma resolve_traffic (artist album : string) (trackc : nat) (w : world) :
  cache w ⊆ cache (resolve remote artist album trackc w).1
  ∧ (∀ k resp, cache (resolve remote artist album trackc w).1 !! k = Some resp →
               cache w !! k = Some resp ∨ is_Some (data resp))
  ∧ ∃ rs, requests (resolve remote artist album trackc w).1 = requests w ++ rs
          ∧ rs `sublist_of` [(artist, album, trackc)].
Proof.
  unfold resolve, Cache.find_response, Cache.set_response.
  destruct (cache w !! (artist, album)) as [cached|] eqn:Hcached.
  - split_and!; [done|by left|]. exists []. rewrite app_nil_r.
    split; [done|]. apply sublist_nil_l.
  - destruct (remote _ _ _ _) as [|resp'].
    + split_and!; [done|by left|]. by exists [(artist, album, trackc)].
    + destruct (data resp') eqn:Hdata'; simpl.
      * split_and!.
        -- by apply insert_subseteq.
        -- intros k resp. rewrite lookup_insert. case_decide; [|by left].
           intros [= <-]. right. by rewrite Hdata'.
        -- by exists [(artist, album, trackc)].
      * split_and!; [done|by left|]. by exists [(artist, album, trackc)].
Qed.

Lemma process_tracks_traffic (lyrics bpm : bool) (r : AlbumRecord)
    (cs : list candidate) (w : world) :
  cache (process_tracks version lrclib_get bpm_of lyrics bpm r cs w).1
  = cache w
  ∧ requests (process_tracks version lrclib_get bpm_of lyrics bpm r cs w).1
    = requests w.
Proof.
  revert w. induction cs as [|c cs IH]; intros w; simpl; [done|].
  assert (cache (process_file version lrclib_get bpm_of lyrics bpm r c w).1
          = cache w
          ∧ requests (process_file version lrclib_get bpm_of lyrics bpm r c w).1
            = requests w) as [Hc Hr].
  { destruct c as [[title position] file]. unfold process_file.
    destruct (negb _); [done|]. destruct (find_match _ _ _) as [m|]; [|done].
    unfold update_file. destruct (open_flac _ _); [|done].
    destruct (assemble _ _ _ _ _ _ _ _ _); [|done].
    by destruct (bool_decide _). }
  destruct (process_file _ _ _ _ _ r c w) as [w' [|e]]; simpl in *; [|done].
  destruct (IH w') as [-> ->]. done.
Qed.

Lemma process_items_traffic (lyrics bpm : bool) (il : list item) (w : world) :
  let w' :=
    (process_items version remote lrclib_get bpm_of lyrics bpm il w).1 in
  cache w ⊆ cache w'
  ∧ (∀ k resp, cache w' !! k = Some resp →
               cache w !! k = Some resp ∨ is_Some (data resp))
  ∧ ∃ rs, requests w' = requests w ++ rs
          ∧ rs `sublist_of` (request_of <$> il).
Proof.
  revert w. induction il as [|it il IH]; intros w; simpl.
  { split_and!; [done|by left|]. exists []. by rewrite app_nil_r. }
  assert (cache w ⊆ cache (process_item version remote lrclib_get bpm_of
                              lyrics bpm it w).1
          ∧ (∀ k resp,
               cache (process_item version remote lrclib_get bpm_of lyrics bpm
                        it w).1 !! k = Some resp →
               cache w !! k = Some resp ∨ is_Some (data resp))
          ∧ ∃ rs, requests (process_item version remote lrclib_get bpm_of
                              lyrics bpm it w).1 = requests w ++ rs
                  ∧ rs `sublist_of` [request_of it]) as Hitem.
  { unfold process_item.
    pose proof (resolve_traffic (it_artist it) (it_album it)
                  (length (it_tracks it))
                  (say (Header (it_album it) (it_artist it)
                          (length (it_tracks it))) w)) as Hres.
    destruct (resolve _ _ _ _ _) as [w1 [resp|]]; simpl in Hres; [|done].
    destruct (data resp) as [r|]; [|done].
    destruct (sorted (it_tracks it)) as [cs|]; [|done].
    by destruct (process_tracks_traffic lyrics bpm r cs w1) as [-> ->]. }
  destruct Hitem as (Hsub & Hnew & rs & Hrs & Hsl).
  destruct (process_item _ _ _ _ _ _ it w) as [w' [|e]]; simpl in *.
  - destruct (IH w') as (Hsub' & Hnew' & rs' & Hrs' & Hsl').
    split_and!.
    + by etrans.
    + intros k resp Hk. destruct (Hnew' k resp Hk) as [Hold|?]; [|by right].
      by apply Hnew.
    + exists (rs ++ rs'). split; [by rewrite Hrs', Hrs, app_assoc|].
      by apply (sublist_app _ [_]).
  - split_and!; [done|done|]. exists rs. split; [done|].
    etrans; [exact Hsl|]. apply sublist_skip, sublist_nil_l.
Qed.

(** X16. Over a whole run the cache only grows: no entry is replaced or
    removed, and every new entry carries a record. The requests sent are
    added to the log, at most one per group of the scan and in the order
    of the groups. *)
Theorem update_traffic (bpm lyrics force : bool) (w : world) :
  let w' := (update version remote lrclib_get bpm_of bpm lyrics force w).1 in
  cache w ⊆ cache w'
  ∧ (∀ k resp, cache w' !! k = Some resp →
               cache w !! k = Some resp ∨ is_Some (data resp))
  ∧ ∃ rs, requests w' = requests w ++ rs
          ∧ rs `sublist_of` (request_of <$> (scan force (files w)).1).
Proof.
  simpl. unfold update. destruct (negb (is_dir w)); simpl.
  { split_and!; [done|by left|]. exists []. rewrite app_nil_r.
    split; [done|]. apply sublist_nil_l. }
  destruct (scan force (files w)) as [il warnings]. simpl.
  apply (process_items_traffic lyrics bpm il
           {| is_dir := is_dir w; files := files w; read_only := read_only w;
              cache := cache w;
              requests := requests w; out := out w ++ warnings |}).
Qed.

End Traffic.

(** ** Which exceptions a run can end with *)




Section Outcome.

Context (version : string).
Context (remote : nat → string → string → nat → reply).
Context (lrclib_get : string → string → string → Z → lyrics_reply).
Context (bpm_of : list string → option Z).








End Outcome.

(** ** Releases of one or two discs *)

Lemma tracks_before_split (media : list App.medium) (k : nat) :
  k < length (media ≫= App.track_list) →
  ∃ i med j,
    media !! i = Some med ∧ j < length (App.track_list med)
    ∧ k = App.tracks_before media i + j.
Proof.
  revert k. induction media as [|m media IH]; intros k Hk.
  { simpl in Hk. lia. }
  rewrite bind_cons, length_app in Hk.
  destruct (decide (k < length (App.track_list m))) as [Hhere|Hlater].
  - exists 0, m, k. by split_and!.
  - destruct (IH (k - length (App.track_list m))) as (i & med & j & ? & ? & ?);
      [lia|].
    exists (S i), med, j. split_and!; [done|done|].
    rewrite tracks_before_cons. lia.
Qed.

(** X7. For a release of at most two media whose announced track counts are
    the numbers of listed tracks and whose tracks are numbered 1, 2, ...
    on each medium, the positions of the built record are 1, 2, ... over
    the whole release. *)
Theorem two_disc_positions (data : App.release) (r : AlbumRecord) :
  App.grab_musicbrainz data = Some r →
  (length (App.medium_list data) ≤ 2)%nat →
  (∀ med, med ∈ App.medium_list data →
          App.track_count med = Z.of_nat (length (App.track_list med))) →
  (∀ med j t, med ∈ App.medium_list data → App.track_list med !! j = Some t →
              App.trk_position t = Py.str (Z.of_nat j + 1)) →
  ∀ k tr, r_tracks r !! k = Some tr → t_position tr = (Z.of_nat k + 1)%Z.
Proof.
  intros Hgrab Htwo Hcount Hnumbered k tr Hk.
  unfold App.grab_musicbrainz in Hgrab.
  destruct (App.rel_artist_credit data) as [|[aid aname|] credits];
    simpl in Hgrab; try done.
  destruct (App.fill_tracks data 0 (App.medium_list data)) as [built|] eqn:Hfill;
    simpl in Hgrab; [|done].
  injection Hgrab as <-. simpl in Hk.
  destruct (fill_tracks_shape _ _ _ _ Hfill) as (Htitles & _ & _).
  assert (k < length (App.medium_list data ≫= App.track_list)) as Hlt.
  { rewrite <- (length_fmap (App.rec_title ∘ App.trk_recording)), <- Htitles,
      length_fmap.
    by eapply lookup_lt_Some. }
  destruct (tracks_before_split _ _ Hlt) as (i & med & j & Hmed & Hj & ->).
  destruct (lookup_lt_is_Some_2 (App.track_list med) j Hj) as [t Ht].
  destruct (fill_tracks_lookup _ _ _ _ _ _ _ _ Hfill Hmed Ht)
    as (tr' & Htr' & Hentry).
  assert (tr' = tr) as -> by congruence.
  unfold App.track_entry in Hentry. simpl in Hentry.
  rewrite (Hnumbered med j t) in Hentry
    by (done || by eapply list_elem_of_lookup_2).
  rewrite int_str in Hentry.
  destruct i as [|[|i]].
  - simpl in Hentry. injection Hentry as <-. simpl.
    unfold App.tracks_before. simpl. lia.
  - simpl in Hentry.
    destruct (App.medium_list data) as [|m0 media] eqn:Hmedia; [done|].
    simpl in Hentry. injection Hentry as <-. simpl.
    rewrite (Hcount m0) by (by left).
    unfold App.tracks_before. simpl. lia.
  - apply lookup_lt_Some in Hmed. lia.
Qed.

(** ** Instances *)

Lemma position_match_sort_key_witness :
  sort_key (Some "B", Some "2", ["music"; "z"; "02.flac"]) = Some 2%Z
  ∧ ∀ y, Some (Py.str (t_position y)) = Some "2" →
         t_position y = t_position Sample.rec_b.
Proof.
  apply (position_match_sort_key (Some "B") (Some "2")
           ["music"; "z"; "02.flac"] Sample.rec_b).
  reflexivity.
Defined.

Lemma grab_musicbrainz_tracks_witness :
  length [ "a"; "b"; "c"; "d" ]
  = length (App.medium_list Sample.three_discs ≫= App.track_list)
  ∧ [ "a"; "b"; "c"; "d" ]
    = (App.rec_title ∘ App.trk_recording)
        <$> (App.medium_list Sample.three_discs ≫= App.track_list)
  ∧ [ ["X"; "W"]; ["X"; "W"]; ["X"; "W"]; ["X"; "W"] ]
    = (App.credit_names ∘ App.rec_artist_credit ∘ App.trk_recording)
        <$> (App.medium_list Sample.three_discs ≫= App.track_list)
  ∧ [ 1%Z; 1%Z; 2%Z; 3%Z ]
    = mjoin (imap (λ i m, replicate (length (App.track_list m))
                            (Z.of_nat i + 1)%Z)
               (App.medium_list Sample.three_discs)).
Proof.
  exact (grab_musicbrainz_tracks Sample.three_discs _ eq_refl).
Defined.

Lemma grab_musicbrainz_artist_witness :
  ∃ i n rest,
    App.rel_artist_credit Sample_service.two_discs = App.Credit i n :: rest
    ∧ "id-x" = i
    ∧ ["X"; "W"] = n :: App.credit_names rest.
Proof.
  exact (proj1 (grab_musicbrainz_artist Sample_service.two_discs _ eq_refl)).
Defined.

Lemma two_disc_positions_witness :
  t_position
    {| t_disc := 2; t_artist := ["X"; "W"]; t_title := "d"; t_position := 4 |}
  = (Z.of_nat 3 + 1)%Z.
Proof.
  apply (two_disc_positions Sample_service.two_discs _ eq_refl).
  - simpl. lia.
  - intros med Hmed. repeat (apply elem_of_cons in Hmed as [->|Hmed]);
      [reflexivity|reflexivity|by apply elem_of_nil in Hmed].
  - intros med j t Hmed Ht.
    repeat (apply elem_of_cons in Hmed as [->|Hmed]);
      [| |by apply elem_of_nil in Hmed];
      repeat (destruct j as [|j]; [injection Ht as <-; reflexivity|]);
      discriminate Ht.
  - reflexivity.
Defined.

Lemma search_musicbrainz_result_witness :
  ∃ first others data,
    Sample_service.search "Double" "X" 5 = Some (first :: others)
    ∧ Sample_service.get_release first = Some data
    ∧ App.grab_musicbrainz data = App.grab_musicbrainz Sample_service.two_discs
    ∧ "Double" = App.rel_title data
    ∧ "mb-double" = App.rel_id data.
Proof.
  exact (proj2 (search_musicbrainz_result Sample_service.search
                  Sample_service.get_release "X" "Double" 5) _ eq_refl).
Defined.

Lemma scan_group_contents_witness :
  [ (Some "A", Some "1", ["music"; "x"; "01.flac"]);
    (Some "B", Some "2", ["music"; "z"; "02.flac"]) ]
  = group_tracks false "Y"
      [Sample.a1; Sample.cover; Sample.a2; Sample.marked]
  ∧ [ (Some "A", Some "1", ["music"; "x"; "01.flac"]);
      (Some "B", Some "2", ["music"; "z"; "02.flac"]) ] ≠ [].
Proof.
  apply (proj1 (scan_group_contents false
                  [Sample.a1; Sample.cover; Sample.a2; Sample.marked])
           {| it_album := "Y"; it_artist := "X";
              it_tracks := [(Some "A", Some "1", ["music"; "x"; "01.flac"]);
                            (Some "B", Some "2", ["music"; "z"; "02.flac"])] |}).
  vm_compute. constructor.
Defined.

Lemma sorted_keeps_order_witness :
  sorted [ (Some "A", None, ["a.flac"]); (Some "B", Some "1", ["b.flac"]);
           (None, Some "2", ["c.flac"]) ]
  = Some [ (Some "A", None, ["a.flac"]); (Some "B", Some "1", ["b.flac"]);
           (None, Some "2", ["c.flac"]) ].
Proof.
  apply (proj1 sorted_keeps_order _ [0%Z; 1%Z; 2%Z]).
  - repeat constructor.
  - repeat constructor; simpl; lia.
Defined.

Lemma updated_files_are_skipped_witness :
  Sample.file_of ["music"; "x"; "01.flac"]
    [("DISC", "1"); ("ALBUM", "Y"); ("TRACK", "1"); ("TITLE", "A");
     ("ARTIST", "X"); ("ALBUMARTIST", "X");
     ("MUSICBRAINZ_ALBUMID", "mb-album");
     ("MUSICBRAINZ_ALBUMARTISTID", "mb-artist");
     ("YEAR", "2020"); ("DATE", "2020-01-02"); ("PIZZA", "0.1.0")]
  ∈ files (Sample.world_of [Sample.a1; Sample.cover])
  ∨ ∀ st,
      scan_file false st
        (Sample.file_of ["music"; "x"; "01.flac"]
           [("DISC", "1"); ("ALBUM", "Y"); ("TRACK", "1"); ("TITLE", "A");
            ("ARTIST", "X"); ("ALBUMARTIST", "X");
            ("MUSICBRAINZ_ALBUMID", "mb-album");
            ("MUSICBRAINZ_ALBUMARTISTID", "mb-artist");
            ("YEAR", "2020"); ("DATE", "2020-01-02"); ("PIZZA", "0.1.0")])
      = st.
Proof.
  apply (updated_files_are_skipped Sample.version Sample.remote_y
           Sample.lrclib_plain Sample.bpm_120 false false false
           (Sample.world_of [Sample.a1; Sample.cover])).
  vm_compute. constructor.
Defined.

Lemma resolve_again_witness :
  resolve Sample.remote_y "X" "Y" 7
    (resolve Sample.remote_y "X" "Y" 2 (Sample.world_of [])).1
  = ((resolve Sample.remote_y "X" "Y" 2 (Sample.world_of [])).1,
     Some Sample.found).
Proof.
  apply (resolve_again Sample.remote_y "X" "Y" 2 7 (Sample.world_of []) _
           Sample.found Sample.album_y).
  - reflexivity.
  - reflexivity.
Defined.

(** A release with a vinyl-style position. *)
Lemma grab_musicbrainz_None_witness :
  App.grab_musicbrainz Sample.vinyl_release = None.
Proof.
  apply (grab_musicbrainz_None Sample.vinyl_release); [reflexivity|].
  right. exists {| App.track_count := 2;
                   App.track_list := [Sample.mb_track "A1" "a";
                                      Sample.mb_track "2" "b"] |},
           (Sample.mb_track "A1" "a").
  split; [by left|]. split; [by left|reflexivity].
Defined.


(** The container cannot write [Sample.a1]: the run stops at that file
    with the container's error, and the tree is as it was. *)
Example write_protected_file :
  let w :=
    {| is_dir := true; files := [Sample.a1]; read_only := [e_path Sample.a1];
       cache := ∅; requests := []; out := [] |} in
  let run :=
    update Sample.version Sample.remote_y Sample.lrclib_plain Sample.bpm_120
      false false false w in
  run.2 = Raised MutagenError
  ∧ files run.1 = [Sample.a1]
  ∧ out run.1 = [Header "Y" "X" 1].
Proof. split_and!; by vm_compute. Qed.
